(** * Watch-state migration pipeline of the Jellyfin migration scripts

    A shallow embedding of

    - [export-scripts/user-watched-export.py]  (the Extractor),
    - [export-scripts/password-extract.py]     (the credential exporter),
    - [import-scripts/user-watched-import.py]  (the Resolver and Loader),

    followed by the properties of the watch-state pipeline.

    Conventions.  A Python [str] and an SQLite TEXT value are lists of
    characters; [None] and SQL NULL are [None] of an [option].  A table is
    the list of its rows in rowid order.  A Python [dict] is a [gmap]. *)

From Stdlib Require Import ZArith Ascii String List Lia.
From stdpp Require Import prelude strings gmap.

Local Open Scope Z_scope.
Local Open Scope list_scope.

(** ** Python and SQLite string primitives *)

Module Py.

Definition str := list ascii.

(** A string literal of the scripts. *)
Definition lit (s : string) : str := list_ascii_of_string s.

(** [s.startswith(prefix)] *)
Fixpoint startswith (s prefix : str) {struct prefix} : bool :=
  match prefix, s with
  | [], _ => true
  | _ :: _, [] => false
  | p :: prefix', c :: s' => Ascii.eqb c p && startswith s' prefix'
  end.

(** The scan behind [str.replace] for a non-empty [old]: occurrences are
    found left to right and do not overlap.  [skip] counts the characters
    of the occurrence just replaced that are still to be passed over. *)
Fixpoint replace_scan (old new : str) (skip : nat) (s : str) : str :=
  match s with
  | [] => []
  | c :: s' =>
      match skip with
      | S k => replace_scan old new k s'
      | O =>
          if startswith s old
          then new ++ replace_scan old new (Nat.pred (length old)) s'
          else c :: replace_scan old new 0 s'
      end
  end.

(** [s.replace(old, new)].  With an empty [old], Python inserts [new]
    before every character and at the end. *)
Definition replace (s old new : str) : str :=
  match old with
  | [] => new ++ flat_map (fun c => c :: new) s
  | _ :: _ => replace_scan old new 0 s
  end.

(** [s[i:j]] for literal bounds [0 <= i <= j], [s[:j]] and [s[i:]];
    slicing clamps to the length of [s] and never raises. *)
Definition slice (i j : nat) (s : str) : str := take (j - i) (drop i s).
Definition slice_to (j : nat) (s : str) : str := take j s.
Definition slice_from (i : nat) (s : str) : str := drop i s.

(** [s.lower()] on the ASCII letters. *)
Definition lower_char (c : ascii) : ascii :=
  let n := nat_of_ascii c in
  if ((65 <=? n) && (n <=? 90))%nat then ascii_of_nat (n + 32) else c.

Definition lower (s : str) : str := map lower_char s.

(** Truth value of [x] in [if not x] for a value that is a [str] or
    [None]: both [None] and the empty string are false. *)
Definition truthy (x : option str) : bool :=
  match x with
  | None | Some [] => false
  | Some (_ :: _) => true
  end.

(** Exceptions the scripts can meet. *)
Inductive exn : Set :=
| AttributeError
| OverflowError
| sqlite3_Error.

End Py.

Module Sql.

(** SQLite's [REPLACE(X, Y, Z)] on TEXT: every occurrence of [Y] in [X]
    becomes [Z]; with an empty [Y] the result is [X]. *)
Definition REPLACE (x y z : Py.str) : Py.str :=
  match y with
  | [] => x
  | _ :: _ => Py.replace_scan y z 0 x
  end.

(** An INTEGER of SQLite is a signed 64-bit integer.  Binding a Python
    [int] outside this range to a parameter raises [OverflowError] in the
    [sqlite3] module, before the statement runs. *)
Definition fits_int64 (z : Z) : bool :=
  (- 2 ^ 63 <=? z) && (z <=? 2 ^ 63 - 1).

End Sql.

Import Py.

(** ** Data model *)

(** The tables of the old (source) server that the export scripts read:
    [TypedBaseItems] and [UserDatas] of [library.db], and [Users] of the
    attached [jellyfin.db]. *)
Module OldDb.

Record TypedBaseItem := {
  Name : option str;
  Path : option str;
  PresentationUniqueKey : option str
}.

Record UserData := {
  Key : str;
  UserId : Z;
  PlaybackPositionTicks : Z;
  LastPlayedDate : option str
}.

Record User := {
  InternalId : Z;
  Username : str;
  Password : option str
}.

Record t := {
  TypedBaseItems : list TypedBaseItem;
  UserDatas : list UserData;
  Users : list User
}.

End OldDb.

(** One element of [watched_data.json].  A field is [None] when the JSON
    value is [null] or the key is missing ([item.get] gives [None] for
    both). *)
Module Watched.

Record item := {
  ItemName : option str;
  Path : option str;
  PlaybackPositionTicks : option Z;
  LastPlayedDate : option str;
  Username : option str;
  PresentationUniqueKey : option str
}.

End Watched.

(** One element of [jellyfin_users.json]. *)
Module Credential.

Record item := {
  username : str;
  password_hash : option str
}.

End Credential.

(** The tables of the new (destination) server that the import script uses:
    [Users] of [jellyfin.db], and [TypedBaseItems] and [UserDatas] of
    [library.db].  A [UserData] row holds the columns that the INSERT
    statement of the script names. *)
Module NewDb.

Record User := {
  Username : str;
  Id : str
}.

Record TypedBaseItem := {
  Path : option str;
  PresentationUniqueKey : option str
}.

Record UserData := {
  Key : str;
  UserId : str;
  Played : Z;
  PlayCount : Z;
  IsFavorite : Z;
  PlaybackPositionTicks : option Z;
  LastPlayedDate : option str;
  AudioStreamIndex : Z;
  SubtitleStreamIndex : Z
}.

Record t := {
  Users : list User;
  TypedBaseItems : list TypedBaseItem;
  UserDatas : list UserData
}.

(** The unique index of [UserDatas] is on [(Key, UserId)]. *)
Definition index_key (r : UserData) : str * str := (Key r, UserId r).

Definition unique_index (rows : list UserData) : Prop :=
  NoDup (index_key <$> rows).

(** [INSERT OR REPLACE INTO UserDatas]: the rows that conflict with the
    new row on the unique index are deleted, then the new row is
    inserted (it gets the next rowid, so it is last in the table). *)
Definition insert_or_replace (rows : list UserData) (r : UserData)
  : list UserData :=
  filter (fun r' => index_key r' <> index_key r) rows ++ [r].

End NewDb.

(** ** export-scripts/user-watched-export.py *)

Module WatchedExport.

Import OldDb.

(** A row of the result of the query, in the order of its SELECT list. *)
Definition row : Type :=
  option str * option str * Z * option str * str * str.

(** [REPLACE(d.Key, '-', '')]: the key without its dashes. *)
Definition canonicalize (key : str) : str :=
  Sql.REPLACE key (lit "-") (lit "").

(** The join of the query: [TypedBaseItems i JOIN UserDatas d ON
    i.PresentationUniqueKey = REPLACE(d.Key, '-', '') JOIN jf.Users u ON
    d.UserId = u.InternalId WHERE i.Path IS NOT NULL].  A NULL
    [PresentationUniqueKey] is equal to nothing.  The query has no ORDER
    BY: the order of the rows below is one of those that SQLite may
    choose, and the properties proved of the result are about which rows
    it has, not about their order. *)
Definition query (db : OldDb.t) : list row :=
  flat_map (fun i =>
    flat_map (fun d =>
      flat_map (fun u =>
        if bool_decide (PresentationUniqueKey i = Some (canonicalize (Key d)))
           && bool_decide (UserId d = InternalId u)
           && bool_decide (is_Some (Path i))
        then [(Name i, Path i, PlaybackPositionTicks d, LastPlayedDate d,
               Username u, canonicalize (Key d))]
        else [])
      (Users db))
    (UserDatas db))
  (TypedBaseItems db).

(** The loop of [main] that builds [exported_data], the content of
    [watched_data.json]. *)
Definition exported_data (watched_data_rows : list row)
  : list Watched.item :=
  map (fun '(item_name, old_path, position, last_played, username, pres_key) =>
         {| Watched.ItemName := item_name;
            Watched.Path := old_path;
            Watched.PlaybackPositionTicks := Some position;
            Watched.LastPlayedDate := last_played;
            Watched.Username := Some username;
            Watched.PresentationUniqueKey := Some pres_key |})
      watched_data_rows.

Definition main (db : OldDb.t) : list Watched.item :=
  exported_data (query db).

End WatchedExport.

(** ** export-scripts/password-extract.py *)

Module PasswordExtract.

Import OldDb.

Record state := {
  users_data : list Credential.item;
  exported_count : nat;
  skipped_count : nat
}.

(** The body of the loop over [SELECT Username, Password FROM Users]. *)
Definition loop_body (st : state) (row : str * option str) : state :=
  let '(username, password_hash) := row in
  if bool_decide (lower username = lit "jellyfin")
  then {| users_data := users_data st;
          exported_count := exported_count st;
          skipped_count := S (skipped_count st) |}
  else {| users_data := users_data st
                        ++ [{| Credential.username := username;
                               Credential.password_hash := password_hash |}];
          exported_count := S (exported_count st);
          skipped_count := skipped_count st |}.

Definition export_user_data (db : OldDb.t) : state :=
  foldl loop_body
        {| users_data := []; exported_count := 0; skipped_count := 0 |}
        (map (fun u => (Username u, Password u)) (Users db)).

End PasswordExtract.

(** ** import-scripts/user-watched-import.py *)

Module WatchedImport.

Import NewDb.

(** The prefix rule of [translate_path]. *)
Definition SOURCE_PREFIX : str := lit "F:\Media\".
Definition DESTINATION_PREFIX : str := lit "/media/".

Definition translate_path (windows_path : str) : str :=
  let path := Py.replace windows_path SOURCE_PREFIX DESTINATION_PREFIX in
  let path := Py.replace path (lit "\") (lit "/") in
  path.

(** The call [translate_path(old_path)] of [main]: [old_path] comes from
    [item.get("Path")], and [None] has no [replace]. *)
Definition call_translate_path (old_path : option str) : exn + str :=
  match old_path with
  | None => inl AttributeError
  | Some windows_path => inr (translate_path windows_path)
  end.

Definition get_user_map (users : list User) : gmap str str :=
  foldl (fun user_map row => <[Username row := Id row]> user_map) ∅ users.

(** [user_map.get(username)]; the key [None] is never in the map. *)
Definition user_map_get (user_map : gmap str str) (username : option str)
  : option str :=
  match username with
  | None => None
  | Some name => user_map !! name
  end.

(** [SELECT PresentationUniqueKey FROM TypedBaseItems WHERE Path = ?]
    followed by [fetchone()]: the first matching row, whose only column
    may be NULL. *)
Definition get_new_presentation_key (items : list TypedBaseItem)
    (file_path : str) : option str :=
  match filter (fun i => Path i = Some file_path) items with
  | [] => None
  | result :: _ => PresentationUniqueKey result
  end.

(** The f-string that puts the dashes back. *)
Definition format_key (new_pres_key : str) : str :=
  slice_to 8 new_pres_key ++ lit "-" ++
  slice 8 12 new_pres_key ++ lit "-" ++
  slice 12 16 new_pres_key ++ lit "-" ++
  slice 16 20 new_pres_key ++ lit "-" ++
  slice_from 20 new_pres_key.

(** What the script prints. *)
Inductive message :=
| Connected
| Loaded (n : nat)
| FoundUsers (n : nat)
| SkippingUserNotFound (item_name username : option str)
| SkippingMediaNotFound (item_name : option str) (new_path : str)
| MigrationComplete (migrated_count : nat)
| ErrorDuringMigration
| ConnectionsClosed.

(** The variables of [main] that change in the loop: the content of
    [UserDatas] as the open transaction sees it, the counter, and the
    output so far. *)
Record state := {
  pending : list UserData;
  migrated_count : nat;
  stdout : list message
}.

Definition print (m : message) (st : state) : state :=
  {| pending := pending st;
     migrated_count := migrated_count st;
     stdout := stdout st ++ [m] |}.

(** A computation either goes on with a state or raises, keeping the
    state reached. *)
Inductive outcome :=
| Ok (st : state)
| Raise (e : exn) (st : state).

Definition bind (o : outcome) (k : state -> outcome) : outcome :=
  match o with
  | Ok st => k st
  | Raise e st => Raise e st
  end.

Notation "st <- o ;; k" := (bind o (fun st => k))
  (at level 100, o at next level, right associativity).

(** How a run ended. *)
Inductive ending :=
| Committed
| RolledBack
| Uncaught (e : exn).

Record run := {
  UserDatas_after : list UserData;
  output : list message;
  how : ending
}.

(** Whether the integers of the parameter tuple of the INSERT can be
    bound.  [None] is bound as NULL. *)
Definition binds (r : UserData) : bool :=
  Sql.fits_int64 (Played r) && Sql.fits_int64 (PlayCount r)
  && Sql.fits_int64 (IsFavorite r)
  && match PlaybackPositionTicks r with
     | Some position => Sql.fits_int64 position
     | None => true
     end
  && Sql.fits_int64 (AudioStreamIndex r)
  && Sql.fits_int64 (SubtitleStreamIndex r).

Section Loader.

(** The store can refuse a statement: [execute_raises rows r] tells
    whether the INSERT of [r] raises [sqlite3.Error] when the
    transaction sees [rows], and [commit_raises rows] whether the
    commit does. *)
Variable execute_raises : list UserData -> UserData -> bool.
Variable commit_raises : list UserData -> bool.

Variable user_map : gmap str str.
Variable library : list TypedBaseItem.

(** [new_lib_cursor.execute(insert_query, ...)]: the parameters are
    bound first, then the statement runs. *)
Definition execute_insert (r : UserData) (st : state) : outcome :=
  if negb (binds r) then Raise OverflowError st
  else if execute_raises (pending st) r then Raise sqlite3_Error st
  else Ok {| pending := insert_or_replace (pending st) r;
             migrated_count := migrated_count st;
             stdout := stdout st |}.

Definition increment_migrated_count (st : state) : outcome :=
  Ok {| pending := pending st;
        migrated_count := S (migrated_count st);
        stdout := stdout st |}.

(** The body of [for item in watched_data]. *)
Definition loop_body (item : Watched.item) (st : state) : outcome :=
  let item_name := Watched.ItemName item in
  let old_path := Watched.Path item in
  let position := Watched.PlaybackPositionTicks item in
  let last_played := Watched.LastPlayedDate item in
  let username := Watched.Username item in
  (* Step 1: map the username to the new user id *)
  match user_map_get user_map username with
  | None | Some [] =>
      Ok (print (SkippingUserNotFound item_name username) st)
  | Some new_user_id =>
      (* Step 2: translate the path and find the media *)
      match call_translate_path old_path with
      | inl e => Raise e st
      | inr new_path =>
          match get_new_presentation_key library new_path with
          | None | Some [] =>
              Ok (print (SkippingMediaNotFound item_name new_path) st)
          | Some new_pres_key =>
              (* Step 3: insert or update *)
              let formatted_key := format_key new_pres_key in
              st <- execute_insert
                      {| Key := formatted_key;
                         UserId := new_user_id;
                         Played := 1;
                         PlayCount := 1;
                         IsFavorite := 0;
                         PlaybackPositionTicks := position;
                         LastPlayedDate := last_played;
                         AudioStreamIndex := -1;
                         SubtitleStreamIndex := -1 |} st ;;
              increment_migrated_count st
          end
      end
  end.

Fixpoint for_each (watched_data : list Watched.item) (st : state)
  : outcome :=
  match watched_data with
  | [] => Ok st
  | item :: rest => st <- loop_body item st ;; for_each rest st
  end.

(** [new_lib_conn.commit()] and the summary line after it. *)
Definition commit (st : state) : outcome :=
  if commit_raises (pending st) then Raise sqlite3_Error st
  else Ok (print (MigrationComplete (migrated_count st)) st).

End Loader.

(** [main], from the point where both databases are open and the JSON
    file is read.  Only a commit changes [UserDatas]: [except
    sqlite3.Error] rolls back, and an exception that is not caught
    ([AttributeError], [OverflowError]) leaves through [finally], which
    closes the connection without a commit. *)
Definition initial_state (db : NewDb.t) (watched_data : list Watched.item)
  : state :=
  {| pending := UserDatas db;
     migrated_count := 0;
     stdout := [Connected; Loaded (length watched_data);
                FoundUsers (size (get_user_map (Users db)))] |}.

Definition main (execute_raises : list UserData -> UserData -> bool)
    (commit_raises : list UserData -> bool)
    (db : NewDb.t) (watched_data : list Watched.item) : run :=
  let user_map := get_user_map (Users db) in
  match st <- for_each execute_raises user_map (TypedBaseItems db)
                watched_data (initial_state db watched_data) ;;
        commit commit_raises st
  with
  | Ok st =>
      {| UserDatas_after := pending st;
         output := stdout st ++ [ConnectionsClosed];
         how := Committed |}
  | Raise sqlite3_Error st =>
      {| UserDatas_after := UserDatas db;
         output := stdout st ++ [ErrorDuringMigration; ConnectionsClosed];
         how := RolledBack |}
  | Raise e st =>
      {| UserDatas_after := UserDatas db;
         output := stdout st ++ [ConnectionsClosed];
         how := Uncaught e |}
  end.

(** The destination after a run. *)
Definition load (execute_raises : list UserData -> UserData -> bool)
    (commit_raises : list UserData -> bool)
    (db : NewDb.t) (watched_data : list Watched.item) : NewDb.t :=
  {| Users := Users db;
     TypedBaseItems := TypedBaseItems db;
     UserDatas := UserDatas_after
                    (main execute_raises commit_raises db watched_data) |}.

End WatchedImport.

(** ** import-scripts/password-import.py *)

Module PasswordImport.

(** A row of [Users] of the new [jellyfin.db]: the column that the script
    tests, the column that it writes, and the id of the row. *)
Record user_row := {
  Username : str;
  Password : option str;
  Id : str
}.

(** A Python [dict] as the list of its items in insertion order:
    assigning to a key that is present replaces the value in place. *)
Fixpoint dict_set (d : list (str * option str)) (k : str) (v : option str)
  : list (str * option str) :=
  match d with
  | [] => [(k, v)]
  | (k', v') :: d' =>
      if decide (k' = k) then (k, v) :: d' else (k', v') :: dict_set d' k v
  end.

(** The value of a key in such a dict. *)
Fixpoint dict_get (d : list (str * option str)) (k : str)
  : option (option str) :=
  match d with
  | [] => None
  | (k', v') :: d' => if decide (k' = k) then Some v' else dict_get d' k
  end.

(** [{row[0]: row[1] for row in old_cursor.fetchall()}] *)
Definition old_users_data (old_users : list OldDb.User)
  : list (str * option str) :=
  foldl (fun d row => dict_set d (OldDb.Username row) (OldDb.Password row))
        [] old_users.

(** [{row[0] for row in new_cursor.fetchall()}] *)
Definition new_users_set (new_users : list user_row) : gset str :=
  list_to_set (Username <$> new_users).

(** [UPDATE Users SET Password = ? WHERE Username = ?] *)
Definition update_password (rows : list user_row)
    (password_hash : option str) (username : str) : list user_row :=
  (fun r => if decide (Username r = username)
            then {| Username := Username r;
                    Password := password_hash;
                    Id := Id r |}
            else r) <$> rows.

Inductive message :=
| Connected
| FetchingOldUsers
| FoundOldUsers (n : nat)
| Starting
| SkippingExcluded (username : str)
| Updating (username : str)
| ErrorUpdating (username : str)
| SkippingNotFound (username : str)
| MigrationComplete
| ErrorOccurred
| NoChangesCommitted
| Summary (updated_count skipped_count : nat)
| ConnectionsClosed.

Record state := {
  pending : list user_row;
  updated_count : nat;
  skipped_count : nat;
  stdout : list message
}.

Record run := {
  Users_after : list user_row;
  updated : nat;
  skipped : nat;
  output : list message;
  committed : bool
}.

Section Transfer.

(** [update_raises rows username password_hash] tells whether the UPDATE
    raises [sqlite3.Error] when the transaction sees [rows], and
    [commit_raises rows] whether the commit does. *)
Variable update_raises : list user_row -> str -> option str -> bool.
Variable commit_raises : list user_row -> bool.

Variable users_in_new : gset str.

(** The body of [for username, password_hash in old_users_data.items()].
    An UPDATE that raises is reported and the loop goes on. *)
Definition loop_body (st : state) (item : str * option str) : state :=
  let '(username, password_hash) := item in
  if bool_decide (lower username = lit "jellyfin")
  then {| pending := pending st;
          updated_count := updated_count st;
          skipped_count := skipped_count st;
          stdout := stdout st ++ [SkippingExcluded username] |}
  else if bool_decide (username ∈ users_in_new)
  then if update_raises (pending st) username password_hash
       then {| pending := pending st;
               updated_count := updated_count st;
               skipped_count := skipped_count st;
               stdout := stdout st ++ [Updating username;
                                       ErrorUpdating username] |}
       else {| pending := update_password (pending st) password_hash
                            username;
               updated_count := S (updated_count st);
               skipped_count := skipped_count st;
               stdout := stdout st ++ [Updating username] |}
  else {| pending := pending st;
          updated_count := updated_count st;
          skipped_count := S (skipped_count st);
          stdout := stdout st ++ [SkippingNotFound username] |}.

End Transfer.

(** [transfer_password_hashes], from the point where both databases are
    open, with both SELECTs answered.  A commit that raises leaves through
    [except] and [finally]:
    the connection is closed without a commit, and the summary is printed
    all the same. *)
Definition transfer_password_hashes
    (update_raises : list user_row -> str -> option str -> bool)
    (commit_raises : list user_row -> bool)
    (old_users : list OldDb.User) (new_users : list user_row) : run :=
  let items := old_users_data old_users in
  let st := foldl (loop_body update_raises (new_users_set new_users))
                  {| pending := new_users;
                     updated_count := 0;
                     skipped_count := 0;
                     stdout := [Connected; FetchingOldUsers;
                                FoundOldUsers (length items); Starting] |}
                  items in
  if commit_raises (pending st)
  then {| Users_after := new_users;
          updated := updated_count st;
          skipped := skipped_count st;
          output := stdout st
                    ++ [ErrorOccurred; NoChangesCommitted;
                        Summary (updated_count st) (skipped_count st);
                        ConnectionsClosed];
          committed := false |}
  else {| Users_after := pending st;
          updated := updated_count st;
          skipped := skipped_count st;
          output := stdout st
                    ++ [MigrationComplete;
                        Summary (updated_count st) (skipped_count st);
                        ConnectionsClosed];
          committed := true |}.

End PasswordImport.

(** ** The loop of the import script, seen record by record

    What [loop_body] does with a record depends on the record, the user
    map and the destination catalog only, not on the rows written so
    far.  [resolve] names the four cases; the proofs below go through
    it. *)

Module LoaderView.

Import NewDb WatchedImport.

Inductive verdict :=
| UserNotFound
| PathMissing
| MediaNotFound (new_path : str)
| Upsert (r : UserData).

Definition resolve (user_map : gmap str str)
    (library : list TypedBaseItem) (item : Watched.item) : verdict :=
  match user_map_get user_map (Watched.Username item) with
  | None | Some [] => UserNotFound
  | Some new_user_id =>
      match Watched.Path item with
      | None => PathMissing
      | Some old_path =>
          match get_new_presentation_key library
                  (translate_path old_path) with
          | None | Some [] => MediaNotFound (translate_path old_path)
          | Some new_pres_key =>
              Upsert {| Key := format_key new_pres_key;
                        UserId := new_user_id;
                        Played := 1;
                        PlayCount := 1;
                        IsFavorite := 0;
                        PlaybackPositionTicks :=
                          Watched.PlaybackPositionTicks item;
                        LastPlayedDate := Watched.LastPlayedDate item;
                        AudioStreamIndex := -1;
                        SubtitleStreamIndex := -1 |}
          end
      end
  end.

(** The rows that a run sends to the store, in order. *)
Definition batch (user_map : gmap str str) (library : list TypedBaseItem)
    (watched_data : list Watched.item) : list UserData :=
  flat_map (fun item => match resolve user_map library item with
                        | Upsert r => [r]
                        | _ => []
                        end) watched_data.

Definition is_skip (v : verdict) : bool :=
  match v with
  | UserNotFound | MediaNotFound _ => true
  | PathMissing | Upsert _ => false
  end.

(** The number of records of the artifact that the loop skips. *)
Definition skip_count (db : NewDb.t) (watched_data : list Watched.item)
  : nat :=
  length (filter (fun item =>
                    is_skip (resolve (get_user_map (Users db))
                                     (TypedBaseItems db) item) = true)
                 watched_data).

(** Of the rows of a batch with the same index key, the last one. *)
Fixpoint last_wins (rows : list UserData) : list UserData :=
  match rows with
  | [] => []
  | r :: rest =>
      (if decide (index_key r ∈ index_key <$> rest) then [] else [r])
      ++ last_wins rest
  end.

(** Two loop states that differ in the output only. *)
Definition same_data (st st' : state) : Prop :=
  pending st = pending st' /\ migrated_count st = migrated_count st'.

Definition same_outcome (o o' : outcome) : Prop :=
  match o, o' with
  | Ok st, Ok st' => same_data st st'
  | Raise e _, Raise e' _ => e = e'
  | _, _ => False
  end.

Definition state_of (o : outcome) : state :=
  match o with
  | Ok st | Raise _ st => st
  end.

End LoaderView.

(** ** Notions of the specification *)

Module Spec.

(** [old in s] *)
Fixpoint contains (s old : str) : bool :=
  startswith s old
  || match s with
     | [] => false
     | _ :: s' => contains s' old
     end.

(** [s.find(old)]: the index of the first occurrence of [old] in [s]. *)
Fixpoint find (s old : str) : option nat :=
  if startswith s old then Some 0%nat
  else match s with
       | [] => None
       | _ :: s' => S <$> find s' old
       end.

Definition backslash : ascii := "\"%char.

(** The input with every backslash replaced by a forward slash and no
    other change. *)
Definition normalize_separators (path : str) : str :=
  map (fun c => if Ascii.eqb c backslash then "/"%char else c) path.

Definition is_hex_digit (c : ascii) : bool :=
  let n := nat_of_ascii c in
  ((48 <=? n) && (n <=? 57) || (97 <=? n) && (n <=? 102)
   || (65 <=? n) && (n <=? 70))%nat.

Definition is_hex_group (n : nat) (g : str) : bool :=
  (length g =? n)%nat && forallb is_hex_digit g.

(** An undashed fingerprint: 32 hexadecimal characters. *)
Definition is_undashed_fingerprint (F : str) : bool := is_hex_group 32 F.

Definition dash_free (s : str) : Prop := Forall (fun c => c <> "-"%char) s.

Definition dash_at (i : nat) (D : str) : bool :=
  bool_decide (D !! i = Some "-"%char).

(** A dashed fingerprint: hexadecimal groups of 8, 4, 4, 4 and 12
    characters with one dash between two groups. *)
Definition is_dashed_fingerprint (D : str) : bool :=
  is_hex_group 8 (slice_to 8 D) && dash_at 8 D
  && is_hex_group 4 (slice 9 13 D) && dash_at 13 D
  && is_hex_group 4 (slice 14 18 D) && dash_at 18 D
  && is_hex_group 4 (slice 19 23 D) && dash_at 23 D
  && is_hex_group 12 (slice_from 24 D).

(** The distinguished system account, as [password-extract.py] tests
    for it. *)
Definition is_system_account (username : str) : bool :=
  bool_decide (lower username = lit "jellyfin").

(** The lines that the import script prints after its loop. *)
Definition is_run_end (m : WatchedImport.message) : bool :=
  match m with
  | WatchedImport.MigrationComplete _
  | WatchedImport.ErrorDuringMigration
  | WatchedImport.ConnectionsClosed => true
  | _ => false
  end.

Definition run_end_summary (out : list WatchedImport.message)
  : list WatchedImport.message :=
  filter (fun m => is_run_end m = true) out.

(** The lines that the import script prints for a skipped record. *)
Definition is_skip_line (m : WatchedImport.message) : bool :=
  match m with
  | WatchedImport.SkippingUserNotFound _ _
  | WatchedImport.SkippingMediaNotFound _ _ => true
  | _ => false
  end.

Definition skip_lines (out : list WatchedImport.message) : nat :=
  length (filter (fun m => is_skip_line m = true) out).

(** The values that the INSERT statement of the import script fixes. *)
Definition has_fixed_fields (r : NewDb.UserData) : Prop :=
  NewDb.Played r = 1 /\ NewDb.PlayCount r = 1 /\ NewDb.IsFavorite r = 0
  /\ NewDb.AudioStreamIndex r = -1 /\ NewDb.SubtitleStreamIndex r = -1.

(** The row of the new [Users] after the transfer from a dict of old
    passwords: the system account keeps its password, so does a username
    that the dict does not have. *)
Definition with_old_password (items : list (str * option str))
    (r : PasswordImport.user_row) : PasswordImport.user_row :=
  if is_system_account (PasswordImport.Username r) then r
  else match PasswordImport.dict_get items (PasswordImport.Username r) with
       | Some password_hash =>
           {| PasswordImport.Username := PasswordImport.Username r;
              PasswordImport.Password := password_hash;
              PasswordImport.Id := PasswordImport.Id r |}
       | None => r
       end.

(** A row of the new [Users] and what a password import may make of it:
    the same row, or the row with the password of an old account of the
    same username, which is not the system account. *)
Definition password_frame (old_users : list OldDb.User)
    (r r' : PasswordImport.user_row) : Prop :=
  PasswordImport.Username r' = PasswordImport.Username r
  /\ PasswordImport.Id r' = PasswordImport.Id r
  /\ (PasswordImport.Password r' = PasswordImport.Password r
      \/ (is_system_account (PasswordImport.Username r) = false
          /\ exists u, u ∈ old_users
                       /\ OldDb.Username u = PasswordImport.Username r
                       /\ OldDb.Password u = PasswordImport.Password r')).

(** The lines of the password import for the usernames that neither
    counter of its summary counts. *)
Definition is_uncounted_line (m : PasswordImport.message) : bool :=
  match m with
  | PasswordImport.SkippingExcluded _ | PasswordImport.ErrorUpdating _ => true
  | _ => false
  end.

Definition uncounted_lines (out : list PasswordImport.message) : nat :=
  length (filter (fun m => is_uncounted_line m = true) out).

End Spec.

(** ** Concrete stores and artifacts *)

Module Scenario.

Import WatchedImport.

(** A store that accepts every statement. *)
Definition accepts : list NewDb.UserData -> NewDb.UserData -> bool :=
  fun _ _ => false.
Definition commits : list NewDb.UserData -> bool := fun _ => false.

Definition ep1_key : str := lit "9f8e7d6c5b4a39281706f5e4d3c2b1a0".
Definition ep1_dashed : str := lit "9f8e7d6c-5b4a-3928-1706-f5e4d3c2b1a0".
Definition other_key : str := lit "00112233445566778899aabbccddeeff".

Definition ep1_entry : NewDb.TypedBaseItem :=
  {| NewDb.Path := Some (lit "/media/Show/ep1.mkv");
     NewDb.PresentationUniqueKey := Some ep1_key |}.


Definition old_row : NewDb.UserData :=
  {| NewDb.Key := ep1_dashed;
     NewDb.UserId := lit "a11ce";
     NewDb.Played := 0;
     NewDb.PlayCount := 7;
     NewDb.IsFavorite := 1;
     NewDb.PlaybackPositionTicks := Some 12;
     NewDb.LastPlayedDate := None;
     NewDb.AudioStreamIndex := 2;
     NewDb.SubtitleStreamIndex := 3 |}.

(** The destination of the scenarios: alice is known, bob is not, and
    the catalog has the episode. *)
Definition destination : NewDb.t :=
  {| NewDb.Users := [{| NewDb.Username := lit "alice";
                        NewDb.Id := lit "a11ce" |}];
     NewDb.TypedBaseItems := [ep1_entry];
     NewDb.UserDatas := [old_row] |}.

Definition empty_catalog : NewDb.t :=
  {| NewDb.Users := NewDb.Users destination;
     NewDb.TypedBaseItems := [];
     NewDb.UserDatas := [old_row] |}.


Definition watched (username : string) : Watched.item :=
  {| Watched.ItemName := Some (lit "ep1");
     Watched.Path := Some (lit "F:\Media\Show\ep1.mkv");
     Watched.PlaybackPositionTicks := Some 500;
     Watched.LastPlayedDate := Some (lit "2024-01-02 03:04:05");
     Watched.Username := Some (lit username);
     Watched.PresentationUniqueKey :=
       Some (lit "abc123abc123abc123abc123abc123ef") |}.

Definition ep1_row : NewDb.UserData :=
  {| NewDb.Key := ep1_dashed;
     NewDb.UserId := lit "a11ce";
     NewDb.Played := 1;
     NewDb.PlayCount := 1;
     NewDb.IsFavorite := 0;
     NewDb.PlaybackPositionTicks := Some 500;
     NewDb.LastPlayedDate := Some (lit "2024-01-02 03:04:05");
     NewDb.AudioStreamIndex := -1;
     NewDb.SubtitleStreamIndex := -1 |}.

(** A source in which the account named Jellyfin has watched an
    episode, and in which a catalog entry has the empty path. *)
Definition source : OldDb.t :=
  {| OldDb.TypedBaseItems :=
       [{| OldDb.Name := Some (lit "ep1");
           OldDb.Path := Some (lit "F:\Media\Show\ep1.mkv");
           OldDb.PresentationUniqueKey := Some ep1_key |};
        {| OldDb.Name := Some (lit "folder");
           OldDb.Path := Some (lit "");
           OldDb.PresentationUniqueKey := Some other_key |}];
     OldDb.UserDatas :=
       [{| OldDb.Key := ep1_dashed;
           OldDb.UserId := 1;
           OldDb.PlaybackPositionTicks := 500;
           OldDb.LastPlayedDate := None |};
        {| OldDb.Key := other_key;
           OldDb.UserId := 2;
           OldDb.PlaybackPositionTicks := 0;
           OldDb.LastPlayedDate := None |}];
     OldDb.Users :=
       [{| OldDb.InternalId := 1;
           OldDb.Username := lit "Jellyfin";
           OldDb.Password := None |};
        {| OldDb.InternalId := 2;
           OldDb.Username := lit "alice";
           OldDb.Password := Some (lit "$PBKDF2$") |}] |}.

(** A store whose column [PlaybackPositionTicks] is NOT NULL, and a
    record of alice for another file of the catalog, without a
    position. *)
Definition position_not_null : list NewDb.UserData -> NewDb.UserData -> bool :=
  fun _ r => bool_decide (NewDb.PlaybackPositionTicks r = None).

Definition two_episodes : NewDb.t :=
  {| NewDb.Users := NewDb.Users destination;
     NewDb.TypedBaseItems :=
       [ep1_entry;
        {| NewDb.Path := Some (lit "/media/Show/ep2.mkv");
           NewDb.PresentationUniqueKey := Some other_key |}];
     NewDb.UserDatas := [old_row] |}.

Definition no_position : Watched.item :=
  {| Watched.ItemName := Some (lit "ep2");
     Watched.Path := Some (lit "F:\Media\Show\ep2.mkv");
     Watched.PlaybackPositionTicks := None;
     Watched.LastPlayedDate := None;
     Watched.Username := Some (lit "alice");
     Watched.PresentationUniqueKey := None |}.

(** What the export script writes for the two watched entries of
    [source]. *)
Definition jellyfin_record : Watched.item :=
  {| Watched.ItemName := Some (lit "ep1");
     Watched.Path := Some (lit "F:\Media\Show\ep1.mkv");
     Watched.PlaybackPositionTicks := Some 500;
     Watched.LastPlayedDate := None;
     Watched.Username := Some (lit "Jellyfin");
     Watched.PresentationUniqueKey := Some ep1_key |}.

Definition folder_record : Watched.item :=
  {| Watched.ItemName := Some (lit "folder");
     Watched.Path := Some (lit "");
     Watched.PlaybackPositionTicks := Some 0;
     Watched.LastPlayedDate := None;
     Watched.Username := Some (lit "alice");
     Watched.PresentationUniqueKey := Some other_key |}.

(** A store whose commit fails, a record of alice without a path, and a
    destination that also has the account named Jellyfin. *)
Definition commit_fails : list NewDb.UserData -> bool := fun _ => true.

Definition no_path : Watched.item :=
  {| Watched.ItemName := Some (lit "ep3");
     Watched.Path := None;
     Watched.PlaybackPositionTicks := Some 0;
     Watched.LastPlayedDate := None;
     Watched.Username := Some (lit "alice");
     Watched.PresentationUniqueKey := None |}.

Definition destination_with_admin : NewDb.t :=
  {| NewDb.Users := [{| NewDb.Username := lit "Jellyfin";
                        NewDb.Id := lit "adm1n" |};
                     {| NewDb.Username := lit "alice";
                        NewDb.Id := lit "a11ce" |}];
     NewDb.TypedBaseItems := [ep1_entry];
     NewDb.UserDatas := [] |}.

(** The accounts of a new server, for the password import. *)
Definition new_accounts : list PasswordImport.user_row :=
  [{| PasswordImport.Username := lit "jellyfin";
      PasswordImport.Password := Some (lit "fresh");
      PasswordImport.Id := lit "adm1n" |};
   {| PasswordImport.Username := lit "alice";
      PasswordImport.Password := None;
      PasswordImport.Id := lit "a11ce" |}].

Definition updates : list PasswordImport.user_row -> str -> option str -> bool :=
  fun _ _ _ => false.
Definition saves : list PasswordImport.user_row -> bool := fun _ => false.
Definition save_fails : list PasswordImport.user_row -> bool :=
  fun _ => true.

(** A record of alice whose position does not fit a signed 64-bit
    integer. *)
Definition huge_position : Watched.item :=
  {| Watched.ItemName := Some (lit "ep1");
     Watched.Path := Some (lit "F:\Media\Show\ep1.mkv");
     Watched.PlaybackPositionTicks := Some (2 ^ 63);
     Watched.LastPlayedDate := None;
     Watched.Username := Some (lit "alice");
     Watched.PresentationUniqueKey := None |}.

(** A source whose catalog stores the key with its dashes. *)
Definition dashed_source : OldDb.t :=
  {| OldDb.TypedBaseItems :=
       [{| OldDb.Name := Some (lit "ep1");
           OldDb.Path := Some (lit "F:\Media\Show\ep1.mkv");
           OldDb.PresentationUniqueKey := Some ep1_dashed |}];
     OldDb.UserDatas := OldDb.UserDatas source;
     OldDb.Users := OldDb.Users source |}.

End Scenario.

(** ** Facts about the string primitives *)

Section StringFacts.

Implicit Types s t old new : str.

Lemma startswith_app s old : startswith (old ++ s) old = true.
Proof.
  induction old as [|p old IH]; simpl; [done|].
  by rewrite Ascii.eqb_refl, IH.
Qed.

Lemma startswith_inv s old :
  startswith s old = true -> exists t, s = old ++ t.
Proof.
  revert s. induction old as [|p old IH]; intros s H; simpl in *.
  - by exists s.
  - destruct s as [|c s]; [done|].
    apply andb_prop in H as [Hc Hs].
    apply Ascii.eqb_eq in Hc as ->.
    destruct (IH _ Hs) as [t ->]. by exists t.
Qed.

(** Once an occurrence is replaced, its remaining characters are passed
    over. *)
Lemma replace_scan_skip old new t s :
  replace_scan old new (length t) (t ++ s) = replace_scan old new 0 s.
Proof. induction t as [|c t IH]; [done|]. by cbn [length app replace_scan]. Qed.

Lemma replace_scan_prefix old new s :
  old <> [] ->
  replace_scan old new 0 (old ++ s) = new ++ replace_scan old new 0 s.
Proof.
  destruct old as [|p old]; [done|]. intros _.
  change ((p :: old) ++ s) with (p :: (old ++ s)).
  cbn [replace_scan].
  change (p :: old ++ s) with ((p :: old) ++ s).
  rewrite startswith_app. cbn [length Nat.pred].
  by rewrite replace_scan_skip.
Qed.

Lemma contains_cons_false c s old :
  Spec.contains (c :: s) old = false ->
  startswith (c :: s) old = false /\ Spec.contains s old = false.
Proof. cbn [Spec.contains]. apply orb_false_elim. Qed.

(** Where [old] does not occur, [replace] changes nothing. *)
Lemma replace_scan_absent old new s :
  Spec.contains s old = false -> replace_scan old new 0 s = s.
Proof.
  induction s as [|c s IH]; intros H; [done|].
  apply contains_cons_false in H as [H1 H2].
  cbn [replace_scan]. rewrite H1. f_equal. by apply IH.
Qed.

(** An occurrence of [old] brings every character of [old]. *)
Lemma contains_elem s old x :
  Spec.contains s old = true -> x ∈ old -> x ∈ s.
Proof.
  induction s as [|c s IH]; cbn [Spec.contains]; intros H Hx.
  - rewrite orb_false_r in H. apply startswith_inv in H as [t Ht].
    symmetry in Ht. apply app_eq_nil in Ht as [-> _]. by inversion Hx.
  - apply orb_prop in H as [H|H].
    + apply startswith_inv in H as [t ->].
      apply elem_of_app. by left.
    + right. by apply IH.
Qed.

(** Replacing a one-character pattern looks at each character alone. *)
Lemma replace_scan_char c0 new s :
  replace_scan [c0] new 0 s
  = flat_map (fun c => if Ascii.eqb c c0 then new else [c]) s.
Proof.
  induction s as [|c s IH]; [done|].
  cbn [replace_scan startswith flat_map length Nat.pred].
  destruct s; cbn [startswith]; rewrite andb_true_r;
    destruct (Ascii.eqb c c0); by rewrite IH.
Qed.

Lemma flat_map_char_absent c0 new s :
  c0 ∉ s -> flat_map (fun c => if Ascii.eqb c c0 then new else [c]) s = s.
Proof.
  induction s as [|c s IH]; intros H; [done|].
  apply not_elem_of_cons in H as [Hc Hs].
  cbn [flat_map]. rewrite (IH Hs).
  destruct (Ascii.eqb_spec c c0); [congruence|done].
Qed.

Lemma flat_map_char_gone c0 new s :
  c0 ∉ new ->
  c0 ∉ flat_map (fun c => if Ascii.eqb c c0 then new else [c]) s.
Proof.
  intros Hnew. induction s as [|c s IH]; cbn [flat_map].
  - apply not_elem_of_nil.
  - destruct (Ascii.eqb_spec c c0).
    + by apply not_elem_of_app.
    + apply not_elem_of_cons. split; [congruence|done].
Qed.

Lemma flat_map_char_subst c0 c1 s :
  flat_map (fun c => if Ascii.eqb c c0 then [c1] else [c]) s
  = map (fun c => if Ascii.eqb c c0 then c1 else c) s.
Proof.
  induction s as [|c s IH]; [done|].
  cbn [flat_map map]. rewrite IH. by destruct (Ascii.eqb c c0).
Qed.

End StringFacts.

(** ** Path translation *)

Section TranslatePath.

Import WatchedImport.

Lemma translate_path_unfold p :
  translate_path p
  = Spec.normalize_separators
      (replace_scan SOURCE_PREFIX DESTINATION_PREFIX 0 p).
Proof.
  unfold Spec.normalize_separators.
  rewrite <- flat_map_char_subst, <- replace_scan_char. reflexivity.
Qed.

Lemma normalize_separators_no_backslash s :
  Spec.backslash ∉ Spec.normalize_separators s.
Proof.
  unfold Spec.normalize_separators. rewrite <- flat_map_char_subst.
  apply flat_map_char_gone. by intros [E|[]]%list_elem_of_In.
Qed.

Lemma normalize_separators_fixed s :
  Spec.backslash ∉ s -> Spec.normalize_separators s = s.
Proof.
  intros H. unfold Spec.normalize_separators.
  rewrite <- flat_map_char_subst. by apply flat_map_char_absent.
Qed.

Lemma normalize_separators_app s t :
  Spec.normalize_separators (s ++ t)
  = Spec.normalize_separators s ++ Spec.normalize_separators t.
Proof. apply map_app. Qed.

Lemma backslash_in_source_prefix : Spec.backslash ∈ SOURCE_PREFIX.
Proof. apply list_elem_of_In. vm_compute. tauto. Qed.

Lemma source_prefix_absent s :
  Spec.backslash ∉ s -> Spec.contains s SOURCE_PREFIX = false.
Proof.
  intros H. destruct (Spec.contains s SOURCE_PREFIX) eqn:E; [|done].
  destruct H. eapply contains_elem; [exact E|].
  apply backslash_in_source_prefix.
Qed.

Lemma translate_path_no_backslash p : Spec.backslash ∉ translate_path p.
Proof. rewrite translate_path_unfold. apply normalize_separators_no_backslash. Qed.

Lemma translate_path_unmatched p :
  Spec.contains p SOURCE_PREFIX = false ->
  translate_path p = Spec.normalize_separators p.
Proof.
  intros H. rewrite translate_path_unfold. by rewrite replace_scan_absent.
Qed.

Lemma translate_path_matched rest :
  translate_path (SOURCE_PREFIX ++ rest)
  = DESTINATION_PREFIX ++ translate_path rest.
Proof.
  rewrite !translate_path_unfold, replace_scan_prefix by done.
  rewrite normalize_separators_app. f_equal.
Qed.

End TranslatePath.

(** ** Fingerprints: stripping and reinserting the dashes *)

Section Fingerprint.

Import WatchedExport WatchedImport.

Lemma canonicalize_unfold s :
  canonicalize s
  = flat_map (fun c => if Ascii.eqb c "-" then [] else [c]) s.
Proof. rewrite <- replace_scan_char. reflexivity. Qed.

Lemma canonicalize_app s t :
  canonicalize (s ++ t) = canonicalize s ++ canonicalize t.
Proof. rewrite !canonicalize_unfold. apply flat_map_app. Qed.

Lemma canonicalize_dash s : canonicalize ("-"%char :: s) = canonicalize s.
Proof. by rewrite !canonicalize_unfold. Qed.

Lemma canonicalize_dash_free s : Spec.dash_free s -> canonicalize s = s.
Proof.
  intros H. rewrite canonicalize_unfold. apply flat_map_char_absent.
  intros Hin. by eapply (proj1 (Forall_forall _ _) H _ Hin).
Qed.

Lemma hex_digit_not_dash c : Spec.is_hex_digit c = true -> c <> "-"%char.
Proof. by intros H ->. Qed.

Lemma hex_group_inv n g :
  Spec.is_hex_group n g = true -> length g = n /\ Spec.dash_free g.
Proof.
  unfold Spec.is_hex_group. intros [Hn Hg]%andb_prop. split.
  - by apply Nat.eqb_eq.
  - apply Forall_forall. intros c Hc. apply hex_digit_not_dash.
    apply (proj1 (forallb_forall _ _) Hg). by apply list_elem_of_In.
Qed.

(** The slices of [format_key] cut the key into consecutive pieces. *)
Lemma slices_partition k :
  slice_to 8 k ++ slice 8 12 k ++ slice 12 16 k ++ slice 16 20 k
    ++ slice_from 20 k = k.
Proof.
  unfold slice_to, slice, slice_from. cbn [Nat.sub].
  transitivity (take 8 k ++ drop 8 k); [f_equal|apply take_drop].
  transitivity (take 4 (drop 8 k) ++ drop 4 (drop 8 k));
    [f_equal|apply take_drop].
  rewrite drop_drop. cbn [Nat.add].
  transitivity (take 4 (drop 12 k) ++ drop 4 (drop 12 k));
    [f_equal|apply take_drop].
  rewrite drop_drop. cbn [Nat.add].
  transitivity (take 4 (drop 16 k) ++ drop 4 (drop 16 k));
    [f_equal|apply take_drop].
  by rewrite drop_drop.
Qed.

Lemma canonicalize_format_key k :
  Spec.dash_free k -> canonicalize (format_key k) = k.
Proof.
  intros H. unfold format_key.
  change (lit "-") with ["-"%char].
  rewrite !canonicalize_app.
  change (canonicalize ["-"%char]) with (@nil ascii). cbn [app].
  unfold slice_to, slice, slice_from.
  rewrite !canonicalize_dash_free
    by (repeat first [apply Forall_take | apply Forall_drop]; exact H).
  apply slices_partition.
Qed.

Lemma format_key_groups g1 g2 g3 g4 g5 :
  length g1 = 8%nat -> length g2 = 4%nat -> length g3 = 4%nat ->
  length g4 = 4%nat ->
  format_key (g1 ++ g2 ++ g3 ++ g4 ++ g5)
  = g1 ++ "-"%char :: g2 ++ "-"%char :: g3 ++ "-"%char :: g4
       ++ "-"%char :: g5.
Proof.
  intros H1 H2 H3 H4.
  do 9 (destruct g1 as [|? g1]; try discriminate H1).
  do 5 (destruct g2 as [|? g2]; try discriminate H2).
  do 5 (destruct g3 as [|? g3]; try discriminate H3).
  do 5 (destruct g4 as [|? g4]; try discriminate H4).
  reflexivity.
Qed.

(** A dashed fingerprint is its five groups with the dashes between. *)
Lemma dashed_fingerprint_inv D :
  Spec.is_dashed_fingerprint D = true ->
  exists g1 g2 g3 g4 g5,
    D = g1 ++ "-"%char :: g2 ++ "-"%char :: g3 ++ "-"%char :: g4
           ++ "-"%char :: g5
    /\ (length g1 = 8 /\ length g2 = 4 /\ length g3 = 4 /\ length g4 = 4
        /\ length g5 = 12)%nat
    /\ Spec.dash_free g1 /\ Spec.dash_free g2 /\ Spec.dash_free g3 /\ Spec.dash_free g4
    /\ Spec.dash_free g5.
Proof.
  unfold Spec.is_dashed_fingerprint, Spec.dash_at.
  rewrite !andb_true_iff, !bool_decide_eq_true.
  intros [[[[[[[[G1 D1] G2] D2] G3] D3] G4] D4] G5].
  apply hex_group_inv in G1 as [L1 F1], G2 as [L2 F2], G3 as [L3 F3],
    G4 as [L4 F4], G5 as [L5 F5].
  exists (slice_to 8 D), (slice 9 13 D), (slice 14 18 D), (slice 19 23 D),
    (slice_from 24 D).
  split; [|by repeat split].
  unfold slice_to, slice, slice_from. cbn [Nat.sub].
  rewrite <- (take_drop 8 D) at 1. f_equal.
  rewrite (drop_S _ _ _ D1). f_equal.
  rewrite <- (take_drop 4 (drop 9 D)) at 1. f_equal.
  rewrite drop_drop. cbn [Nat.add].
  rewrite (drop_S _ _ _ D2). f_equal.
  rewrite <- (take_drop 4 (drop 14 D)) at 1. f_equal.
  rewrite drop_drop. cbn [Nat.add].
  rewrite (drop_S _ _ _ D3). f_equal.
  rewrite <- (take_drop 4 (drop 19 D)) at 1. f_equal.
  rewrite drop_drop. cbn [Nat.add].
  by rewrite (drop_S _ _ _ D4).
Qed.

Lemma format_canonicalize_dashed D :
  Spec.is_dashed_fingerprint D = true -> format_key (canonicalize D) = D.
Proof.
  intros (g1 & g2 & g3 & g4 & g5 & -> & (L1 & L2 & L3 & L4 & L5)
          & F1 & F2 & F3 & F4 & F5)%dashed_fingerprint_inv.
  rewrite !canonicalize_app, !canonicalize_dash.
  rewrite !canonicalize_app, !canonicalize_dash.
  rewrite !canonicalize_app, !canonicalize_dash.
  rewrite !canonicalize_app, !canonicalize_dash.
  rewrite !canonicalize_dash_free by done.
  by apply format_key_groups.
Qed.

End Fingerprint.

(** ** INSERT OR REPLACE under the unique index *)

Section Upsert.

Import NewDb LoaderView.

Implicit Types rows rs : list UserData.
Implicit Types r : UserData.

Lemma filter_none {A} (P : A -> Prop) `{!forall x, Decision (P x)}
    (rows : list A) :
  (forall x, x ∈ rows -> ~ P x) -> filter P rows = [].
Proof.
  induction rows as [|x rows IH]; intros Hall; [done|].
  rewrite filter_cons_False by (apply Hall; left).
  apply IH. intros y Hy. apply Hall. by right.
Qed.

Lemma filter_all {A} (P : A -> Prop) `{!forall x, Decision (P x)}
    (rows : list A) :
  (forall x, x ∈ rows -> P x) -> filter P rows = rows.
Proof.
  induction rows as [|x rows IH]; intros Hall; [done|].
  rewrite filter_cons_True by (apply Hall; left).
  f_equal. apply IH. intros y Hy. apply Hall. by right.
Qed.

Lemma unique_index_filter (P : UserData -> Prop)
    `{!forall x, Decision (P x)} rows :
  unique_index rows -> unique_index (filter P rows).
Proof.
  unfold unique_index. induction rows as [|x rows IH]; [done|].
  rewrite fmap_cons, NoDup_cons. intros [Hx Hrows].
  rewrite filter_cons. destruct (decide (P x)); [|by apply IH].
  rewrite fmap_cons, NoDup_cons. split; [|by apply IH].
  intros (y & Hy & [_ Hin]%list_elem_of_filter)%list_elem_of_fmap.
  apply Hx. apply list_elem_of_fmap. by exists y.
Qed.

(** The upsert keeps the index unique. *)
Lemma insert_or_replace_unique rows r :
  unique_index rows -> unique_index (insert_or_replace rows r).
Proof.
  intros Hrows. unfold insert_or_replace, unique_index.
  rewrite fmap_app. apply NoDup_app. split; [|split].
  - by apply unique_index_filter.
  - intros k (y & -> & [Hne _]%list_elem_of_filter)%list_elem_of_fmap.
    intros Hk%list_elem_of_fmap. destruct Hk as (z & Hz & Hin).
    apply list_elem_of_singleton in Hin as ->. by apply Hne.
  - apply NoDup_singleton.
Qed.

Lemma insert_or_replace_elem rows r : r ∈ insert_or_replace rows r.
Proof. apply elem_of_app. right. by left. Qed.

Lemma upserts_unique rows rs :
  unique_index rows -> unique_index (foldl insert_or_replace rows rs).
Proof.
  revert rows. induction rs as [|r rs IH]; intros rows H; [done|].
  cbn [foldl]. by apply IH, insert_or_replace_unique.
Qed.

Lemma last_wins_elem r rs : r ∈ last_wins rs -> r ∈ rs.
Proof.
  induction rs as [|x rs IH]; cbn [last_wins]; [done|].
  intros [H|H]%elem_of_app.
  - destruct (decide _); [by inversion H|].
    apply list_elem_of_singleton in H as ->. by left.
  - right. by apply IH.
Qed.

(** A batch of upserts removes the rows whose key is in the batch and
    appends, for each key of the batch, its last row. *)
Lemma upserts_normal_form rows rs :
  foldl insert_or_replace rows rs
  = filter (fun x => index_key x ∉ index_key <$> rs) rows ++ last_wins rs.
Proof.
  revert rows. induction rs as [|r rs IH]; intros rows.
  - cbn [foldl last_wins]. rewrite app_nil_r. symmetry.
    apply filter_all. intros x _. apply not_elem_of_nil.
  - cbn [foldl last_wins]. rewrite IH. unfold insert_or_replace.
    rewrite filter_app, <- !app_assoc. f_equal.
    + rewrite list_filter_filter. apply list_filter_iff. intros x.
      rewrite fmap_cons, not_elem_of_cons. tauto.
    + f_equal. rewrite filter_cons, filter_nil.
      destruct (decide (index_key r ∈ index_key <$> rs)) as [Hin|Hin].
      * by rewrite decide_False by tauto.
      * by rewrite decide_True.
Qed.

(** Sending the same batch again changes nothing. *)
Lemma upserts_idempotent rows rs :
  foldl insert_or_replace (foldl insert_or_replace rows rs) rs
  = foldl insert_or_replace rows rs.
Proof.
  rewrite (upserts_normal_form (foldl _ _ _)), upserts_normal_form.
  rewrite filter_app, <- app_assoc. f_equal.
  - rewrite list_filter_filter. apply list_filter_iff. tauto.
  - rewrite filter_none; [done|].
    intros x Hx%last_wins_elem Hn. apply Hn.
    by apply list_elem_of_fmap_2.
Qed.

End Upsert.

(** ** The loop and the run of the import script *)

Section LoaderFacts.

Import NewDb WatchedImport LoaderView.

Variable execute_raises : list UserData -> UserData -> bool.
Variable commit_raises : list UserData -> bool.
Variable user_map : gmap str str.
Variable library : list TypedBaseItem.

Local Abbreviation loop_body :=
  (WatchedImport.loop_body execute_raises user_map library).
Local Abbreviation for_each :=
  (WatchedImport.for_each execute_raises user_map library).
Local Abbreviation resolve := (LoaderView.resolve user_map library).
Local Abbreviation batch := (LoaderView.batch user_map library).

Lemma loop_body_resolve item st :
  loop_body item st
  = match resolve item with
    | UserNotFound =>
        Ok (print (SkippingUserNotFound (Watched.ItemName item)
                                        (Watched.Username item)) st)
    | PathMissing => Raise AttributeError st
    | MediaNotFound new_path =>
        Ok (print (SkippingMediaNotFound (Watched.ItemName item) new_path)
                  st)
    | Upsert r =>
        st1 <- execute_insert execute_raises r st ;;
        increment_migrated_count st1
    end.
Proof.
  unfold WatchedImport.loop_body, LoaderView.resolve.
  destruct (user_map_get _ _) as [[|]|]; [done| |done].
  destruct (Watched.Path item) as [old_path|]; [|done].
  cbn [call_translate_path].
  by destruct (get_new_presentation_key _ _) as [[|]|].
Qed.

Lemma for_each_app l1 l2 st :
  for_each (l1 ++ l2) st = (st1 <- for_each l1 st ;; for_each l2 st1).
Proof.
  revert st. induction l1 as [|item l1 IH]; intros st; [done|].
  cbn [app WatchedImport.for_each].
  destruct (loop_body item st); [apply IH|done].
Qed.

Lemma batch_app l1 l2 : batch (l1 ++ l2) = batch l1 ++ batch l2.
Proof. apply flat_map_app. Qed.

Lemma batch_skip item l :
  is_skip (resolve item) = true -> batch (item :: l) = batch l.
Proof.
  unfold LoaderView.batch. cbn [flat_map].
  by destruct (resolve item).
Qed.

(** What one turn of the loop leaves behind. *)
Lemma loop_body_ok item st st' :
  loop_body item st = Ok st' ->
  pending st' = foldl insert_or_replace (pending st) (batch [item])
  /\ migrated_count st' = (migrated_count st + length (batch [item]))%nat.
Proof.
  rewrite loop_body_resolve. unfold LoaderView.batch. cbn [flat_map].
  destruct (resolve item) as [| |p|r]; cbn [app length foldl].
  - intros [= <-]. cbn. split; [done|lia].
  - done.
  - intros [= <-]. cbn. split; [done|lia].
  - unfold execute_insert. destruct (binds r); [|done]. cbn [negb].
    destruct (execute_raises _ _); [done|].
    intros [= <-]. cbn. split; [done|lia].
Qed.

Lemma for_each_ok items st st' :
  for_each items st = Ok st' ->
  pending st' = foldl insert_or_replace (pending st) (batch items)
  /\ migrated_count st' = (migrated_count st + length (batch items))%nat.
Proof.
  revert st. induction items as [|item items IH]; intros st.
  - intros [= <-]. cbn. split; [done|lia].
  - cbn [WatchedImport.for_each].
    destruct (loop_body item st) as [st1|] eqn:E; [|done].
    cbn [bind]. intros H. apply IH in H as [Hp Hc].
    apply loop_body_ok in E as [Ep Ec].
    change (item :: items) with ([item] ++ items).
    rewrite batch_app, foldl_app, length_app, <- Ep, Hp, Hc, Ec.
    split; [done|lia].
Qed.

(** The loop prints none of the run-end lines. *)
Lemma loop_body_summary item st :
  Spec.run_end_summary (stdout (state_of (loop_body item st)))
  = Spec.run_end_summary (stdout st).
Proof.
  rewrite loop_body_resolve. unfold Spec.run_end_summary.
  destruct (resolve item) as [| |p|r]; cbn [state_of print stdout].
  - rewrite filter_app, filter_cons_False, filter_nil by done.
    apply app_nil_r.
  - done.
  - rewrite filter_app, filter_cons_False, filter_nil by done.
    apply app_nil_r.
  - unfold execute_insert. destruct (binds r); [|done]. cbn [negb].
    by destruct (execute_raises _ _).
Qed.

Lemma for_each_summary items st :
  Spec.run_end_summary (stdout (state_of (for_each items st)))
  = Spec.run_end_summary (stdout st).
Proof.
  revert st. induction items as [|item items IH]; intros st; [done|].
  cbn [WatchedImport.for_each].
  pose proof (loop_body_summary item st) as H.
  destruct (loop_body item st) as [st1|e st1]; cbn [bind state_of] in *.
  - by rewrite IH.
  - done.
Qed.

(** The output plays no part in what the loop does to the data. *)
Lemma loop_body_same_data item st1 st2 :
  same_data st1 st2 ->
  same_outcome (loop_body item st1) (loop_body item st2).
Proof.
  intros [Hp Hc]. rewrite !loop_body_resolve.
  destruct (resolve item) as [| |p|r]; cbn; try done.
  unfold execute_insert. rewrite Hp.
  destruct (binds r); cbn; [|done].
  destruct (execute_raises _ _); cbn; [done|].
  split; cbn; congruence.
Qed.

Lemma for_each_same_data items st1 st2 :
  same_data st1 st2 ->
  same_outcome (for_each items st1) (for_each items st2).
Proof.
  revert st1 st2. induction items as [|item items IH]; intros st1 st2 H.
  - done.
  - cbn [WatchedImport.for_each].
    pose proof (loop_body_same_data item _ _ H) as Hb.
    destruct (loop_body item st1), (loop_body item st2); cbn in *;
      try done.
    by apply IH.
Qed.

(** A skipped record hands the data on as it found it. *)
Lemma loop_body_skip item st :
  is_skip (resolve item) = true ->
  exists m, loop_body item st = Ok (print m st).
Proof.
  rewrite loop_body_resolve. destruct (resolve item); try done; eauto.
Qed.

Lemma for_each_without_skip l1 item l2 st1 st2 :
  is_skip (resolve item) = true ->
  same_data st1 st2 ->
  same_outcome (for_each (l1 ++ item :: l2) st1) (for_each (l1 ++ l2) st2).
Proof.
  intros Hskip H. rewrite !for_each_app.
  pose proof (for_each_same_data l1 _ _ H) as H1.
  destruct (for_each l1 st1) as [st1'|], (for_each l1 st2) as [st2'|];
    cbn in *; try done.
  destruct (loop_body_skip item st1' Hskip) as [m ->]. cbn [bind].
  by apply for_each_same_data.
Qed.

End LoaderFacts.

Section RunFacts.

Import NewDb WatchedImport LoaderView.

Variable execute_raises : list UserData -> UserData -> bool.
Variable commit_raises : list UserData -> bool.

Local Abbreviation main := (WatchedImport.main execute_raises commit_raises).
Local Abbreviation load := (WatchedImport.load execute_raises commit_raises).
Local Abbreviation batch_of db :=
  (LoaderView.batch (get_user_map (Users db)) (TypedBaseItems db)).

Lemma initial_summary db wd :
  Spec.run_end_summary (stdout (initial_state db wd)) = [].
Proof. done. Qed.

Lemma summary_snoc out ms :
  Spec.run_end_summary out = [] ->
  Forall (fun m => Spec.is_run_end m = true) ms ->
  Spec.run_end_summary (out ++ ms) = ms.
Proof.
  intros Hout Hms. unfold Spec.run_end_summary in *.
  rewrite filter_app, Hout. cbn [app].
  induction Hms as [|m ms Hm _ IH]; [done|].
  by rewrite filter_cons_True, IH.
Qed.

(** The three ways a run can end, with the store and the run-end lines
    of each. *)
Lemma main_cases db wd :
  (how (main db wd) = Committed
   /\ UserDatas_after (main db wd)
      = foldl insert_or_replace (UserDatas db) (batch_of db wd)
   /\ Spec.run_end_summary (output (main db wd))
      = [MigrationComplete (length (batch_of db wd)); ConnectionsClosed])
  \/ (how (main db wd) = RolledBack
      /\ UserDatas_after (main db wd) = UserDatas db
      /\ Spec.run_end_summary (output (main db wd))
         = [ErrorDuringMigration; ConnectionsClosed])
  \/ (exists e, how (main db wd) = Uncaught e
      /\ UserDatas_after (main db wd) = UserDatas db
      /\ Spec.run_end_summary (output (main db wd)) = [ConnectionsClosed]).
Proof.
  unfold WatchedImport.main.
  pose proof (for_each_summary execute_raises (get_user_map (Users db))
                (TypedBaseItems db) wd (initial_state db wd)) as Hsum.
  rewrite initial_summary in Hsum.
  destruct (for_each _ _ _ _ _) as [st|e st] eqn:E; cbn [bind state_of] in *.
  - apply for_each_ok in E as [Hp Hc]. unfold commit.
    destruct (commit_raises (pending st)).
    + right; left. cbn. split; [done|split; [done|]].
      apply summary_snoc; [done|]. by repeat constructor.
    + left. cbn. split; [done|split; [done|]].
      rewrite <- app_assoc. cbn [app]. rewrite Hc. cbn [Nat.add].
      apply summary_snoc; [done|]. by repeat constructor.
  - destruct e.
    + right; right. exists AttributeError. cbn. split; [done|split; [done|]].
      apply summary_snoc; [done|]. by repeat constructor.
    + right; right. exists OverflowError. cbn. split; [done|split; [done|]].
      apply summary_snoc; [done|]. by repeat constructor.
    + right; left. cbn. split; [done|split; [done|]].
      apply summary_snoc; [done|]. by repeat constructor.
Qed.

Lemma load_unchanged db wd :
  UserDatas_after (main db wd) = UserDatas db -> load db wd = db.
Proof. unfold WatchedImport.load. intros ->. by destruct db. Qed.

(** A run keeps the unique index. *)
Lemma main_unique db wd :
  unique_index (UserDatas db) ->
  unique_index (UserDatas_after (main db wd)).
Proof.
  intros H.
  destruct (main_cases db wd) as [(_ & -> & _)|[(_ & -> & _)|(e & _ & -> & _)]];
    [by apply upserts_unique|done|done].
Qed.

(** If the loop stops with an exception, nothing is committed. *)
Lemma main_raise db wd e st :
  for_each execute_raises (get_user_map (Users db)) (TypedBaseItems db) wd
    (initial_state db wd) = Raise e st ->
  UserDatas_after (main db wd) = UserDatas db
  /\ how (main db wd)
     = match e with
       | sqlite3_Error => RolledBack
       | AttributeError | OverflowError => Uncaught e
       end.
Proof. unfold WatchedImport.main. intros ->. by destruct e. Qed.

(** Runs whose loops agree on the data end the same way. *)
Lemma main_same_outcome db wd1 wd2 :
  same_outcome
    (for_each execute_raises (get_user_map (Users db)) (TypedBaseItems db)
       wd1 (initial_state db wd1))
    (for_each execute_raises (get_user_map (Users db)) (TypedBaseItems db)
       wd2 (initial_state db wd2)) ->
  UserDatas_after (main db wd1) = UserDatas_after (main db wd2)
  /\ how (main db wd1) = how (main db wd2).
Proof.
  unfold WatchedImport.main.
  destruct (for_each _ _ _ wd1 _) as [st1|e1 st1],
           (for_each _ _ _ wd2 _) as [st2|e2 st2]; cbn [same_outcome bind];
    try done.
  - intros [Hp Hc]. unfold commit. rewrite Hp.
    by destruct (commit_raises (pending st2)).
  - intros ->. by destruct e2.
Qed.

Lemma main_summary db wd :
  Spec.run_end_summary (output (main db wd))
  = match how (main db wd) with
    | Committed =>
        [MigrationComplete (length (batch_of db wd)); ConnectionsClosed]
    | RolledBack => [ErrorDuringMigration; ConnectionsClosed]
    | Uncaught _ => [ConnectionsClosed]
    end.
Proof.
  by destruct (main_cases db wd)
    as [(-> & _ & ->)|[(-> & _ & ->)|(e & -> & _ & ->)]].
Qed.

Lemma run_end_line_printed db wd m :
  Spec.is_run_end m = true ->
  m ∈ output (main db wd) <->
  m ∈ Spec.run_end_summary (output (main db wd)).
Proof.
  intros Hm. unfold Spec.run_end_summary.
  rewrite list_elem_of_filter. tauto.
Qed.

End RunFacts.

(** ** The Loader *)

Section LoaderClaims.

Import NewDb WatchedImport LoaderView.

Variable execute_raises : list UserData -> UserData -> bool.
Variable commit_raises : list UserData -> bool.

Local Abbreviation main := (WatchedImport.main execute_raises commit_raises).
Local Abbreviation load := (WatchedImport.load execute_raises commit_raises).

(** C1.  Idempotence of the Loader.  Whatever statements the store
    accepts or refuses, running the import script a second time on the
    same artifact leaves the destination as the first run left it: the
    table [UserDatas] is the same list of rows, so the rerun creates no
    row; and a table that has at most one row for each pair
    [(Key, UserId)] before the run has at most one after it. *)
Theorem loader_idempotent db watched_data :
  load (load db watched_data) watched_data = load db watched_data
  /\ (unique_index (UserDatas db) ->
      unique_index (UserDatas (load db watched_data)))
  /\ length (UserDatas (load (load db watched_data) watched_data))
     = length (UserDatas (load db watched_data)).
Proof.
  assert (load (load db watched_data) watched_data = load db watched_data)
    as Hidem.
  { destruct (main_cases execute_raises commit_raises db watched_data)
      as [(_ & H1 & _)|[(_ & H1 & _)|(e & _ & H1 & _)]].
    - apply load_unchanged.
      destruct (main_cases execute_raises commit_raises
                  (load db watched_data) watched_data)
        as [(_ & H2 & _)|[(_ & H2 & _)|(e & _ & H2 & _)]]; [|done|done].
      rewrite H2. cbn [WatchedImport.load Users TypedBaseItems UserDatas].
      rewrite H1. apply upserts_idempotent.
    - apply load_unchanged in H1. by rewrite !H1.
    - apply load_unchanged in H1. by rewrite !H1. }
  split; [exact Hidem|]. split; [|by rewrite Hidem].
  apply main_unique.
Qed.

(** C5 (as amended).  A failing upsert discards the batch.  If the loop
    reaches a record whose INSERT raises, nothing is committed:
    [UserDatas] is exactly what it was before the run, whatever rows the
    earlier records had written in the transaction, and no completion
    line is printed.  When the INSERT raises [sqlite3.Error] the run is
    rolled back and prints the error line.  When it raises another
    exception ([OverflowError], for an integer that SQLite cannot hold)
    the exception is not caught and the script prints no error line. *)
Theorem failed_upsert_discards_batch db l1 item l2 st e st' :
  for_each execute_raises (get_user_map (Users db)) (TypedBaseItems db) l1
    (initial_state db (l1 ++ item :: l2)) = Ok st ->
  loop_body execute_raises (get_user_map (Users db)) (TypedBaseItems db)
    item st = Raise e st' ->
  e <> AttributeError ->
  UserDatas_after (main db (l1 ++ item :: l2)) = UserDatas db
  /\ (forall n, MigrationComplete n ∉ output (main db (l1 ++ item :: l2)))
  /\ match e with
     | sqlite3_Error =>
         how (main db (l1 ++ item :: l2)) = RolledBack
         /\ ErrorDuringMigration ∈ output (main db (l1 ++ item :: l2))
     | _ =>
         how (main db (l1 ++ item :: l2)) = Uncaught e
         /\ ErrorDuringMigration ∉ output (main db (l1 ++ item :: l2))
     end.
Proof.
  intros Hloop Hitem He.
  assert (for_each execute_raises (get_user_map (Users db))
            (TypedBaseItems db) (l1 ++ item :: l2)
            (initial_state db (l1 ++ item :: l2)) = Raise e st')
    as Hraise.
  { rewrite for_each_app, Hloop. cbn [bind WatchedImport.for_each].
    by rewrite Hitem. }
  apply (main_raise _ commit_raises) in Hraise as [Hstore Hhow].
  split; [done|].
  pose proof (main_summary execute_raises commit_raises db
                (l1 ++ item :: l2)) as Hsum.
  rewrite Hhow in Hsum.
  assert (forall m, Spec.is_run_end m = true ->
            m ∈ output (main db (l1 ++ item :: l2)) ->
            m ∈ Spec.run_end_summary (output (main db (l1 ++ item :: l2))))
    as Hline by (intros m Hm; by apply run_end_line_printed).
  split.
  - intros n Hn%Hline; [|done]. rewrite Hsum in Hn.
    destruct e; [done| |];
      repeat (apply elem_of_cons in Hn as [Hn|Hn]; [done|]);
      by inversion Hn.
  - destruct e; [done| |].
    + split; [done|]. intros Hn%Hline; [|done]. rewrite Hsum in Hn.
      apply list_elem_of_singleton in Hn. done.
    + split; [done|]. apply run_end_line_printed; [done|].
      rewrite Hsum. by left.
Qed.

(** With the fixed values of the script, only the position can fail to
    be bound. *)
Lemma binds_position r :
  Spec.has_fixed_fields r ->
  binds r = match PlaybackPositionTicks r with
            | Some position => Sql.fits_int64 position
            | None => true
            end.
Proof.
  intros (H1 & H2 & H3 & H4 & H5). unfold binds.
  rewrite H1, H2, H3, H4, H5.
  change (Sql.fits_int64 1) with true. change (Sql.fits_int64 0) with true.
  change (Sql.fits_int64 (-1)) with true.
  cbn [andb]. by rewrite !andb_true_r.
Qed.

(** C6.  The fields of the row written.  For a record whose username is
    known and whose translated path resolves to a key, the loop body is
    the INSERT OR REPLACE of one row followed by the increment of the
    counter; that row has the dashed key, the user id, [Played = 1],
    [PlayCount = 1], [IsFavorite = 0], both stream indexes [-1], and the
    position and the last-played date of the record as they are; and
    when the position is an integer that SQLite can hold and the store
    accepts the statement, the row is in the table. *)
Theorem written_row_fields user_map library item st
    new_user_id old_path new_pres_key :
  user_map_get user_map (Watched.Username item) = Some new_user_id ->
  truthy (Some new_user_id) = true ->
  Watched.Path item = Some old_path ->
  get_new_presentation_key library (translate_path old_path)
    = Some new_pres_key ->
  truthy (Some new_pres_key) = true ->
  exists r,
    loop_body execute_raises user_map library item st
    = (st1 <- execute_insert execute_raises r st ;;
       increment_migrated_count st1)
    /\ ((forall position,
           Watched.PlaybackPositionTicks item = Some position ->
           Sql.fits_int64 position = true) ->
        execute_raises (pending st) r = false ->
        exists st1,
          loop_body execute_raises user_map library item st = Ok st1
          /\ pending st1 = insert_or_replace (pending st) r
          /\ r ∈ pending st1)
    /\ Key r = format_key new_pres_key
    /\ UserId r = new_user_id
    /\ Played r = 1 /\ PlayCount r = 1 /\ IsFavorite r = 0
    /\ AudioStreamIndex r = -1 /\ SubtitleStreamIndex r = -1
    /\ PlaybackPositionTicks r = Watched.PlaybackPositionTicks item
    /\ LastPlayedDate r = Watched.LastPlayedDate item.
Proof.
  intros Huser Hu Hpath Hkey Hk.
  destruct new_user_id as [|u0 uid]; [done|].
  destruct new_pres_key as [|k0 key]; [done|].
  eexists. split; [|split].
  - unfold loop_body. rewrite Huser, Hpath. cbn [call_translate_path].
    rewrite Hkey. reflexivity.
  - intros Hfits Hacc. eexists. split; [|split].
    + unfold loop_body. rewrite Huser, Hpath. cbn [call_translate_path].
      rewrite Hkey. unfold execute_insert.
      rewrite binds_position by (by repeat split).
      cbn [PlaybackPositionTicks].
      assert (match Watched.PlaybackPositionTicks item with
              | Some position => Sql.fits_int64 position
              | None => true
              end = true) as ->.
      { destruct (Watched.PlaybackPositionTicks item); [by apply Hfits|done]. }
      cbn [negb]. rewrite Hacc. reflexivity.
    + reflexivity.
    + apply insert_or_replace_elem.
  - by repeat split.
Qed.

(** A record is skipped when its username is unknown, or when its path
    translates to a path that the catalog does not resolve. *)
Lemma skip_resolve user_map library item :
  truthy (user_map_get user_map (Watched.Username item)) = false
  \/ (exists old_path,
        Watched.Path item = Some old_path
        /\ truthy (get_new_presentation_key library
                     (translate_path old_path)) = false) ->
  is_skip (resolve user_map library item) = true.
Proof.
  unfold resolve.
  destruct (user_map_get _ _) as [[|]|]; try done.
  intros [H|(old_path & -> & H)]; [done|].
  by destruct (get_new_presentation_key _ _) as [[|]|].
Qed.

(** X25.  A skipped record changes nothing in the store.  A record
    whose username is unknown, or whose translated path the catalog does
    not resolve, prints its own line and leaves the rows of the
    transaction and [migrated_count] as they are; the run with the record
    ends as the run without it: same [UserDatas], same ending, same lines
    after the loop. *)
Theorem skipped_record_leaves_store db l1 item l2 :
  truthy (user_map_get (get_user_map (Users db)) (Watched.Username item))
    = false
  \/ (exists old_path,
        Watched.Path item = Some old_path
        /\ truthy (get_new_presentation_key (TypedBaseItems db)
                     (translate_path old_path)) = false) ->
  (forall st, exists m,
      loop_body execute_raises (get_user_map (Users db))
        (TypedBaseItems db) item st = Ok (print m st)
      /\ (m = SkippingUserNotFound (Watched.ItemName item)
                (Watched.Username item)
          \/ exists new_path,
              m = SkippingMediaNotFound (Watched.ItemName item) new_path))
  /\ UserDatas_after (main db (l1 ++ item :: l2))
     = UserDatas_after (main db (l1 ++ l2))
  /\ how (main db (l1 ++ item :: l2)) = how (main db (l1 ++ l2))
  /\ Spec.run_end_summary (output (main db (l1 ++ item :: l2)))
     = Spec.run_end_summary (output (main db (l1 ++ l2))).
Proof.
  intros Hskip%skip_resolve. split.
  { intros st. rewrite loop_body_resolve.
    destruct (resolve _ _ item); try done; eauto. }
  assert (UserDatas_after (main db (l1 ++ item :: l2))
          = UserDatas_after (main db (l1 ++ l2))
          /\ how (main db (l1 ++ item :: l2)) = how (main db (l1 ++ l2)))
    as [Hstore Hhow].
  { apply main_same_outcome. by apply for_each_without_skip. }
  split; [done|]. split; [done|].
  rewrite !main_summary, Hhow, !batch_app, batch_skip; done.
Qed.

End LoaderClaims.

(** ** The Extractor *)

Section Extractor.

Import OldDb.

(** The records of the artifact are the joined triples of the query. *)
Lemma exported_iff db item :
  item ∈ WatchedExport.main db <->
  exists i d u,
    i ∈ TypedBaseItems db /\ d ∈ UserDatas db /\ u ∈ Users db
    /\ PresentationUniqueKey i = Some (WatchedExport.canonicalize (Key d))
    /\ UserId d = InternalId u
    /\ is_Some (Path i)
    /\ item = {| Watched.ItemName := Name i;
                 Watched.Path := Path i;
                 Watched.PlaybackPositionTicks :=
                   Some (PlaybackPositionTicks d);
                 Watched.LastPlayedDate := LastPlayedDate d;
                 Watched.Username := Some (Username u);
                 Watched.PresentationUniqueKey :=
                   Some (WatchedExport.canonicalize (Key d)) |}.
Proof.
  unfold WatchedExport.main, WatchedExport.exported_data,
    WatchedExport.query.
  rewrite list_elem_of_In, in_map_iff. split.
  - intros (row & <- & Hrow).
    apply in_flat_map in Hrow as (i & Hi & Hrow).
    apply in_flat_map in Hrow as (d & Hd & Hrow).
    apply in_flat_map in Hrow as (u & Hu & Hrow).
    destruct (bool_decide (PresentationUniqueKey i = _)) eqn:E1;
      [|by destruct Hrow].
    destruct (bool_decide (UserId d = _)) eqn:E2; [|by destruct Hrow].
    destruct (bool_decide (is_Some _)) eqn:E3; [|by destruct Hrow].
    apply bool_decide_eq_true in E1, E2, E3.
    destruct Hrow as [<-|[]].
    exists i, d, u. by rewrite !list_elem_of_In.
  - intros (i & d & u & Hi & Hd & Hu & E1 & E2 & E3 & ->).
    apply list_elem_of_In in Hi. apply list_elem_of_In in Hd.
    apply list_elem_of_In in Hu.
    eexists. split; [|
      apply in_flat_map; exists i; split; [done|];
      apply in_flat_map; exists d; split; [done|];
      apply in_flat_map; exists u; split; [done|] ].
    2:{ rewrite !bool_decide_eq_true_2 by done. by left. }
    done.
Qed.

(** C7 (as amended).  The Extractor excludes the catalog entries whose
    path is NULL: every record of the artifact has the path of a catalog
    entry, and that path is a string.  The string may be empty. *)
Theorem exported_path_not_null db item :
  item ∈ WatchedExport.main db ->
  exists i old_path,
    i ∈ TypedBaseItems db
    /\ Path i = Some old_path
    /\ Watched.Path item = Some old_path.
Proof.
  intros (i & d & u & Hi & _ & _ & _ & _ & [old_path Hp] & ->)%exported_iff.
  by exists i, old_path.
Qed.

(** The credential exporter leaves the system account out. *)
Lemma credentials_exclude_system_account db c :
  c ∈ PasswordExtract.users_data (PasswordExtract.export_user_data db) ->
  Spec.is_system_account (Credential.username c) = false.
Proof.
  unfold PasswordExtract.export_user_data.
  generalize (map (fun u => (Username u, Password u)) (Users db)).
  intros rows.
  assert (forall st,
    (forall c, c ∈ PasswordExtract.users_data st ->
       Spec.is_system_account (Credential.username c) = false) ->
    forall c, c ∈ PasswordExtract.users_data
                  (foldl PasswordExtract.loop_body st rows) ->
       Spec.is_system_account (Credential.username c) = false) as Hinv.
  { induction rows as [|[username password_hash] rows IH]; intros st Hst;
      [done|].
    cbn [foldl]. apply IH. unfold PasswordExtract.loop_body.
    destruct (bool_decide (lower username = lit "jellyfin")) eqn:E;
      cbn [PasswordExtract.users_data]; [done|].
    intros c' [Hc|Hc]%elem_of_app; [by apply Hst|].
    by apply list_elem_of_singleton in Hc as ->. }
  apply Hinv. intros c' Hc. by inversion Hc.
Qed.

End Extractor.

(** C2 (evaluation at the failing input).  In [Scenario.source] the
    account named Jellyfin owns a watch row.  The watch exporter writes a
    record with that username, although the username is the system
    account's by the test of the credential exporter, which leaves the
    account out of its own artifact for the same source. *)
Theorem system_account_exported :
  Scenario.jellyfin_record ∈ WatchedExport.main Scenario.source
  /\ Watched.Username Scenario.jellyfin_record = Some (lit "Jellyfin")
  /\ Spec.is_system_account (lit "Jellyfin") = true
  /\ Forall (fun c => Spec.is_system_account (Credential.username c) = false)
            (PasswordExtract.users_data
               (PasswordExtract.export_user_data Scenario.source)).
Proof.
  split; [|split; [|split]].
  - apply list_elem_of_In. vm_compute. by left.
  - reflexivity.
  - reflexivity.
  - apply Forall_forall. intros c. apply credentials_exclude_system_account.
Qed.

(** C7 (counterexample).  A catalog entry whose path is the empty string
    passes [WHERE i.Path IS NOT NULL], and its record is in the
    artifact. *)
Lemma empty_path_exported :
  ~ (forall db item,
       item ∈ WatchedExport.main db ->
       Watched.Path item <> None /\ Watched.Path item <> Some []).
Proof.
  intros H.
  destruct (H Scenario.source Scenario.folder_record) as [_ Hempty].
  - apply list_elem_of_In. vm_compute. right. by left.
  - by apply Hempty.
Qed.

Lemma exported_path_not_null_witness :
  exists i old_path,
    i ∈ OldDb.TypedBaseItems Scenario.source
    /\ OldDb.Path i = Some old_path
    /\ Watched.Path Scenario.jellyfin_record = Some old_path.
Proof.
  apply (exported_path_not_null Scenario.source Scenario.jellyfin_record).
  apply list_elem_of_In. vm_compute. by left.
Defined.

(** ** The Resolver *)

Section Resolver.

Import NewDb WatchedImport.


End Resolver.



(** ** Claims on path translation and fingerprints *)

Section Strings.

Import WatchedExport WatchedImport.

(** An occurrence found by [find] is the first one: the scan copies
    what precedes it, replaces it and goes on after it. *)
Lemma replace_scan_find old new s n :
  old <> [] ->
  Spec.find s old = Some n ->
  replace_scan old new 0 s
  = take n s ++ new ++ replace_scan old new 0 (drop (n + length old) s).
Proof.
  intros Hold. revert n. induction s as [|c s IH]; intros n.
  - destruct old; [done|]. discriminate.
  - cbn [Spec.find]. destruct (startswith (c :: s) old) eqn:E.
    + intros [= <-]. apply startswith_inv in E as [t ->].
      rewrite replace_scan_prefix by done.
      cbn [take app Nat.add]. by rewrite drop_app_length.
    + destruct (Spec.find s old) as [m|] eqn:F; [|discriminate].
      cbn [fmap option_fmap option_map]. intros [= <-].
      cbn [replace_scan take drop Nat.add app]. rewrite E.
      by rewrite (IH m eq_refl).
Qed.

Lemma find_none_iff s old :
  Spec.find s old = None <-> Spec.contains s old = false.
Proof.
  induction s as [|c s IH]; cbn [Spec.find Spec.contains].
  - destruct (startswith [] old); [by split|by rewrite orb_false_r].
  - destruct (startswith (c :: s) old); cbn [orb]; [by split|].
    rewrite <- IH. destruct (Spec.find s old); by split.
Qed.

(** C3 (as amended).  For a string, [translate_path] returns and does
    not raise.  Its one rule is applied wherever the pattern
    [SOURCE_PREFIX] occurs, at the start of the path or not: a path that
    begins with the pattern has it replaced by [DESTINATION_PREFIX] and
    the translation goes on in the rest; a path whose first occurrence of
    the pattern is at index [n] comes out as its first [n] characters
    with the separators normalized, then [DESTINATION_PREFIX], then the
    translation of what follows the occurrence; a path in which the
    pattern does not occur comes out as the input with every backslash
    replaced by a forward slash and no other change. *)
Theorem translate_path_rule windows_path rest :
  call_translate_path (Some windows_path)
    = inr (translate_path windows_path)
  /\ (Spec.contains windows_path SOURCE_PREFIX = false ->
      translate_path windows_path
      = Spec.normalize_separators windows_path)
  /\ translate_path (SOURCE_PREFIX ++ rest)
     = DESTINATION_PREFIX ++ translate_path rest
  /\ (forall n,
        Spec.find windows_path SOURCE_PREFIX = Some n ->
        translate_path windows_path
        = Spec.normalize_separators (take n windows_path)
          ++ DESTINATION_PREFIX
          ++ translate_path
               (drop (n + length SOURCE_PREFIX) windows_path)).
Proof.
  split; [done|]. split; [|split].
  - apply translate_path_unmatched.
  - apply translate_path_matched.
  - intros n Hn. rewrite !translate_path_unfold.
    rewrite (replace_scan_find _ _ _ n) by done.
    rewrite !normalize_separators_app. f_equal.
Qed.

(** C10.  Path translation is idempotent: the result of
    [translate_path] has no backslash, the pattern of the rule has one,
    so a second translation finds nothing to replace. *)
Theorem translate_path_idempotent windows_path :
  translate_path (translate_path windows_path)
  = translate_path windows_path.
Proof.
  pose proof (translate_path_no_backslash windows_path) as H.
  rewrite translate_path_unmatched by (by apply source_prefix_absent).
  by apply normalize_separators_fixed.
Qed.

(** C4.  Round trip of the fingerprint.  For an undashed fingerprint
    [F] of 32 hexadecimal characters, formatting, stripping the dashes
    and formatting again gives the formatted [F]; for a dashed
    fingerprint [D] in groups of 8-4-4-4-12, stripping the dashes and
    formatting gives [D] back. *)
Theorem fingerprint_round_trip F D :
  Spec.is_undashed_fingerprint F = true ->
  Spec.is_dashed_fingerprint D = true ->
  format_key (canonicalize (format_key F)) = format_key F
  /\ format_key (canonicalize D) = D.
Proof.
  intros [_ HF]%hex_group_inv HD. split.
  - by rewrite canonicalize_format_key.
  - by apply format_canonicalize_dashed.
Qed.

End Strings.

(** C3 (counterexample).  The path [C:\F:\Media\x] does not begin with
    the pattern, yet the pattern inside it is replaced: the result is not
    the input with its separators normalized. *)
Lemma translate_path_inner_occurrence :
  ~ (forall windows_path,
       startswith windows_path WatchedImport.SOURCE_PREFIX = false ->
       WatchedImport.translate_path windows_path
       = Spec.normalize_separators windows_path).
Proof.
  intros H. specialize (H (lit "C:\F:\Media\x") eq_refl).
  vm_compute in H. discriminate H.
Qed.

Lemma translate_path_rule_witness :
  (Spec.contains (lit "D:\Films\a.mkv") WatchedImport.SOURCE_PREFIX = false
   /\ WatchedImport.translate_path (lit "D:\Films\a.mkv")
      = Spec.normalize_separators (lit "D:\Films\a.mkv"))
  /\ (Spec.find (lit "C:\F:\Media\x") WatchedImport.SOURCE_PREFIX
      = Some 3%nat
      /\ WatchedImport.translate_path (lit "C:\F:\Media\x")
         = lit "C://media/x").
Proof.
  split.
  - split; [reflexivity|].
    apply (translate_path_rule (lit "D:\Films\a.mkv") []). reflexivity.
  - split; [reflexivity|].
    destruct (translate_path_rule (lit "C:\F:\Media\x") [])
      as (_ & _ & _ & H).
    rewrite (H 3%nat eq_refl). reflexivity.
Defined.

Lemma fingerprint_round_trip_witness :
  WatchedImport.format_key
    (WatchedExport.canonicalize (WatchedImport.format_key Scenario.ep1_key))
  = WatchedImport.format_key Scenario.ep1_key
  /\ WatchedImport.format_key (WatchedExport.canonicalize Scenario.ep1_dashed)
     = Scenario.ep1_dashed.
Proof.
  apply (fingerprint_round_trip Scenario.ep1_key Scenario.ep1_dashed);
    reflexivity.
Defined.

(** ** Runs of the scenarios *)

(** Scenario 1: the record of alice replaces her row for the episode. *)
Example scenario_migrated :
  WatchedImport.main Scenario.accepts Scenario.commits Scenario.destination
    [Scenario.watched "alice"]
  = {| WatchedImport.UserDatas_after := [Scenario.ep1_row];
       WatchedImport.output :=
         [WatchedImport.Connected; WatchedImport.Loaded 1;
          WatchedImport.FoundUsers 1; WatchedImport.MigrationComplete 1;
          WatchedImport.ConnectionsClosed];
       WatchedImport.how := WatchedImport.Committed |}.
Proof. by vm_compute. Qed.

(** Scenario 2: the catalog has no entry for the translated path. *)
Example scenario_media_not_found :
  WatchedImport.main Scenario.accepts Scenario.commits Scenario.empty_catalog
    [Scenario.watched "alice"]
  = {| WatchedImport.UserDatas_after := [Scenario.old_row];
       WatchedImport.output :=
         [WatchedImport.Connected; WatchedImport.Loaded 1;
          WatchedImport.FoundUsers 1;
          WatchedImport.SkippingMediaNotFound (Some (lit "ep1"))
            (lit "/media/Show/ep1.mkv");
          WatchedImport.MigrationComplete 0;
          WatchedImport.ConnectionsClosed];
       WatchedImport.how := WatchedImport.Committed |}.
Proof. by vm_compute. Qed.

(** Scenario 3: bob is not an account of the destination. *)
Example scenario_user_not_found :
  WatchedImport.main Scenario.accepts Scenario.commits Scenario.destination
    [Scenario.watched "bob"]
  = {| WatchedImport.UserDatas_after := [Scenario.old_row];
       WatchedImport.output :=
         [WatchedImport.Connected; WatchedImport.Loaded 1;
          WatchedImport.FoundUsers 1;
          WatchedImport.SkippingUserNotFound (Some (lit "ep1"))
            (Some (lit "bob"));
          WatchedImport.MigrationComplete 0;
          WatchedImport.ConnectionsClosed];
       WatchedImport.how := WatchedImport.Committed |}.
Proof. by vm_compute. Qed.

(** A record without a path, for a known user: [translate_path(None)]
    raises, nothing catches it, and nothing is committed. *)
Example scenario_path_missing :
  WatchedImport.main Scenario.accepts Scenario.commits Scenario.destination
    [Scenario.watched "alice";
     {| Watched.ItemName := None; Watched.Path := None;
        Watched.PlaybackPositionTicks := None;
        Watched.LastPlayedDate := None;
        Watched.Username := Some (lit "alice");
        Watched.PresentationUniqueKey := None |}]
  = {| WatchedImport.UserDatas_after := [Scenario.old_row];
       WatchedImport.output :=
         [WatchedImport.Connected; WatchedImport.Loaded 2;
          WatchedImport.FoundUsers 1; WatchedImport.ConnectionsClosed];
       WatchedImport.how := WatchedImport.Uncaught AttributeError |}.
Proof. by vm_compute. Qed.

Lemma loader_idempotent_witness :
  NewDb.unique_index (NewDb.UserDatas Scenario.destination)
  /\ NewDb.unique_index
       (NewDb.UserDatas
          (WatchedImport.load Scenario.accepts Scenario.commits
             Scenario.destination
             [Scenario.watched "alice"; Scenario.watched "bob"])).
Proof.
  assert (NewDb.unique_index (NewDb.UserDatas Scenario.destination)) as H
    by apply NoDup_singleton.
  split; [exact H|].
  by apply (loader_idempotent Scenario.accepts Scenario.commits
              Scenario.destination
              [Scenario.watched "alice"; Scenario.watched "bob"]).
Defined.

Lemma failed_upsert_discards_batch_witness :
  WatchedImport.UserDatas_after
    (WatchedImport.main Scenario.position_not_null Scenario.commits
       Scenario.two_episodes [Scenario.watched "alice"; Scenario.no_position])
  = [Scenario.old_row]
  /\ WatchedImport.how
       (WatchedImport.main Scenario.position_not_null Scenario.commits
          Scenario.two_episodes
          [Scenario.watched "alice"; Scenario.no_position])
     = WatchedImport.RolledBack.
Proof.
  edestruct (failed_upsert_discards_batch Scenario.position_not_null
               Scenario.commits Scenario.two_episodes
               [Scenario.watched "alice"] Scenario.no_position [])
    as (H1 & _ & H2).
  - vm_compute. reflexivity.
  - vm_compute. reflexivity.
  - discriminate.
  - split; [exact H1|exact (proj1 H2)].
Defined.

(** C5 (counterexample).  The record [Scenario.huge_position] passes both
    checks and its position is 2^63.  Binding it raises [OverflowError],
    which [except sqlite3.Error] does not catch: the table is unchanged,
    but the script prints no error line. *)
Lemma overflow_not_reported :
  ~ (forall execute_raises commit_raises db l1 item l2 st e st',
       WatchedImport.for_each execute_raises
         (WatchedImport.get_user_map (NewDb.Users db))
         (NewDb.TypedBaseItems db) l1
         (WatchedImport.initial_state db (l1 ++ item :: l2))
       = WatchedImport.Ok st ->
       WatchedImport.loop_body execute_raises
         (WatchedImport.get_user_map (NewDb.Users db))
         (NewDb.TypedBaseItems db) item st
       = WatchedImport.Raise e st' ->
       e <> AttributeError ->
       WatchedImport.UserDatas_after
         (WatchedImport.main execute_raises commit_raises db
            (l1 ++ item :: l2)) = NewDb.UserDatas db
       /\ WatchedImport.ErrorDuringMigration
          ∈ WatchedImport.output
              (WatchedImport.main execute_raises commit_raises db
                 (l1 ++ item :: l2))).
Proof.
  intros H.
  destruct (H Scenario.accepts Scenario.commits Scenario.destination []
              Scenario.huge_position []
              (WatchedImport.initial_state Scenario.destination
                 [Scenario.huge_position])
              OverflowError
              (WatchedImport.initial_state Scenario.destination
                 [Scenario.huge_position]))
    as [_ Hline].
  - reflexivity.
  - reflexivity.
  - discriminate.
  - apply list_elem_of_In in Hline. vm_compute in Hline.
    intuition discriminate.
Qed.

Lemma written_row_fields_witness :
  exists r,
    WatchedImport.loop_body Scenario.accepts
      (WatchedImport.get_user_map (NewDb.Users Scenario.destination))
      (NewDb.TypedBaseItems Scenario.destination)
      (Scenario.watched "alice")
      (WatchedImport.initial_state Scenario.destination
         [Scenario.watched "alice"])
    = WatchedImport.bind
        (WatchedImport.execute_insert Scenario.accepts r
           (WatchedImport.initial_state Scenario.destination
              [Scenario.watched "alice"]))
        WatchedImport.increment_migrated_count
    /\ r = Scenario.ep1_row
    /\ exists st1,
         WatchedImport.loop_body Scenario.accepts
           (WatchedImport.get_user_map (NewDb.Users Scenario.destination))
           (NewDb.TypedBaseItems Scenario.destination)
           (Scenario.watched "alice")
           (WatchedImport.initial_state Scenario.destination
              [Scenario.watched "alice"])
         = WatchedImport.Ok st1
         /\ r ∈ WatchedImport.pending st1.
Proof.
  destruct (written_row_fields Scenario.accepts
              (WatchedImport.get_user_map (NewDb.Users Scenario.destination))
              (NewDb.TypedBaseItems Scenario.destination)
              (Scenario.watched "alice")
              (WatchedImport.initial_state Scenario.destination
                 [Scenario.watched "alice"])
              (lit "a11ce") (lit "F:\Media\Show\ep1.mkv") Scenario.ep1_key)
    as (r & Hbody & Hin & HK & HU & H1 & H2 & H3 & H4 & H5 & H6 & H7);
    [reflexivity..|].
  exists r. split; [exact Hbody|]. split.
  - destruct r. cbn in HK, HU, H1, H2, H3, H4, H5, H6, H7. subst.
    reflexivity.
  - destruct Hin as (st1 & Hok & _ & Hr).
    + intros position [= <-]. reflexivity.
    + reflexivity.
    + by exists st1.
Defined.

Lemma skipped_record_leaves_store_witness :
  WatchedImport.UserDatas_after
    (WatchedImport.main Scenario.accepts Scenario.commits Scenario.destination
       [Scenario.watched "bob"; Scenario.watched "alice"])
  = WatchedImport.UserDatas_after
      (WatchedImport.main Scenario.accepts Scenario.commits
         Scenario.destination [Scenario.watched "alice"]).
Proof.
  apply (skipped_record_leaves_store Scenario.accepts Scenario.commits
           Scenario.destination [] (Scenario.watched "bob")
           [Scenario.watched "alice"]).
  left. reflexivity.
Defined.

(** No skip counter is among the run-end lines: a run that skips
    nothing and a run that skips one record print the same lines after
    the loop, so no reading of those lines gives the number of skipped
    records. *)
Lemma summary_has_no_skip_count :
  ~ (exists report : list WatchedImport.message -> nat,
       forall db watched_data,
         report (Spec.run_end_summary
                   (WatchedImport.output
                      (WatchedImport.main Scenario.accepts Scenario.commits
                         db watched_data)))
         = LoaderView.skip_count db watched_data).
Proof.
  intros [report H].
  pose proof (H Scenario.destination []) as H0.
  pose proof (H Scenario.destination [Scenario.watched "bob"]) as H1.
  vm_compute in H0, H1. congruence.
Qed.

(** C9 (evaluation at the failing input).  The artifact has one record,
    of bob, who is not an account of the destination.  The run skips it:
    it prints the skip line, and the lines after the loop are the
    completion line with the migrated count 0 and the closing line, the
    same as for the empty artifact.  No counter of skipped records is
    kept or printed, unlike in the device and password importers. *)
Theorem skipped_record_not_counted :
  WatchedImport.main Scenario.accepts Scenario.commits Scenario.destination
    [Scenario.watched "bob"]
  = {| WatchedImport.UserDatas_after := [Scenario.old_row];
       WatchedImport.output :=
         [WatchedImport.Connected; WatchedImport.Loaded 1;
          WatchedImport.FoundUsers 1;
          WatchedImport.SkippingUserNotFound (Some (lit "ep1"))
            (Some (lit "bob"));
          WatchedImport.MigrationComplete 0;
          WatchedImport.ConnectionsClosed];
       WatchedImport.how := WatchedImport.Committed |}
  /\ Spec.run_end_summary
       (WatchedImport.output
          (WatchedImport.main Scenario.accepts Scenario.commits
             Scenario.destination [Scenario.watched "bob"]))
     = Spec.run_end_summary
         (WatchedImport.output
            (WatchedImport.main Scenario.accepts Scenario.commits
               Scenario.destination []))
  /\ LoaderView.skip_count Scenario.destination [Scenario.watched "bob"]
     = 1%nat
  /\ LoaderView.skip_count Scenario.destination [] = 0%nat.
Proof.
  split; [by vm_compute|]. split; [by vm_compute|]. split; by vm_compute.
Qed.

(** ** Further properties: the user map and the catalog lookup *)

Section Lookups.

Import NewDb WatchedImport.

Lemma get_user_map_snoc users row :
  get_user_map (users ++ [row])
  = <[Username row := Id row]> (get_user_map users).
Proof. unfold get_user_map. by rewrite foldl_app. Qed.

(** X1.  The user map holds, for a username, the id of the last row of
    [Users] with that username, and nothing for a username that no row
    has. *)
Theorem user_map_last_row_wins users name :
  get_user_map users !! name
  = Id <$> last (filter (fun row => Username row = name) users).
Proof.
  induction users as [|row users IH] using rev_ind; [done|].
  rewrite get_user_map_snoc, filter_app, filter_cons, filter_nil.
  destruct (decide (Username row = name)) as [<-|Hne].
  - by rewrite lookup_insert_eq, last_snoc.
  - by rewrite lookup_insert_ne, app_nil_r.
Qed.



End Lookups.

(** ** Further properties: the two renderings of a fingerprint *)

Section Renderings.

Import WatchedExport WatchedImport.

Lemma format_key_unfold k :
  format_key k
  = take 8 k ++ "-"%char :: take 4 (drop 8 k) ++ "-"%char ::
    take 4 (drop 12 k) ++ "-"%char :: take 4 (drop 16 k) ++ "-"%char ::
    drop 20 k.
Proof. reflexivity. Qed.

(** The f-string adds its four dashes to a key of any length. *)
Lemma format_key_length k : length (format_key k) = (length k + 4)%nat.
Proof.
  rewrite <- (slices_partition k) at 2. rewrite format_key_unfold.
  unfold slice_to, slice, slice_from. cbn [Nat.sub].
  repeat first [rewrite length_app | rewrite length_cons]. lia.
Qed.

(** X3.  Two different keys have different dashed renderings, whatever
    their lengths, so two catalog entries with different keys never share
    a [Key] in [UserDatas]. *)
Theorem format_key_injective k1 k2 :
  k1 <> k2 -> format_key k1 <> format_key k2.
Proof.
  intros Hne H. apply Hne.
  assert (length k1 = length k2) as Hlen.
  { apply (f_equal length) in H. rewrite !format_key_length in H. lia. }
  rewrite <- (slices_partition k1), <- (slices_partition k2).
  unfold slice_to, slice, slice_from. cbn [Nat.sub].
  rewrite !format_key_unfold in H.
  apply app_inj_1 in H as [-> H]; [|rewrite !length_take; lia].
  injection H as H.
  apply app_inj_1 in H as [-> H];
    [|rewrite !length_take, !length_drop; lia].
  injection H as H.
  apply app_inj_1 in H as [-> H];
    [|rewrite !length_take, !length_drop; lia].
  injection H as H.
  apply app_inj_1 in H as [-> H];
    [|rewrite !length_take, !length_drop; lia].
  injection H as ->. reflexivity.
Qed.

Lemma hex_group_app n m g h :
  Spec.is_hex_group n g = true -> Spec.is_hex_group m h = true ->
  Spec.is_hex_group (n + m) (g ++ h) = true.
Proof.
  unfold Spec.is_hex_group.
  intros [Hn Hg]%andb_prop [Hm Hh]%andb_prop.
  apply Nat.eqb_eq in Hn, Hm.
  rewrite length_app, forallb_app, Hg, Hh, Hn, Hm, Nat.eqb_refl. done.
Qed.

Lemma hex_group_take n m g :
  Spec.is_hex_group n g = true -> (m <= n)%nat ->
  Spec.is_hex_group m (take m g) = true.
Proof.
  unfold Spec.is_hex_group. intros [Hn Hg]%andb_prop Hm.
  apply Nat.eqb_eq in Hn. apply andb_true_intro. split.
  - apply Nat.eqb_eq. rewrite length_take. lia.
  - apply forallb_forall. intros c Hc%list_elem_of_In.
    apply (proj1 (forallb_forall _ _) Hg), list_elem_of_In.
    by apply (subseteq_take m g).
Qed.

Lemma hex_group_drop n m g :
  Spec.is_hex_group n g = true ->
  Spec.is_hex_group (n - m) (drop m g) = true.
Proof.
  unfold Spec.is_hex_group. intros [Hn Hg]%andb_prop.
  apply Nat.eqb_eq in Hn. apply andb_true_intro. split.
  - apply Nat.eqb_eq. rewrite length_drop. lia.
  - apply forallb_forall. intros c Hc%list_elem_of_In.
    apply (proj1 (forallb_forall _ _) Hg), list_elem_of_In.
    by apply (subseteq_drop m g).
Qed.

(** The dashed rendering read group by group. *)
Lemma dashed_of_groups g1 g2 g3 g4 g5 :
  Spec.is_hex_group 8 g1 = true -> Spec.is_hex_group 4 g2 = true ->
  Spec.is_hex_group 4 g3 = true -> Spec.is_hex_group 4 g4 = true ->
  Spec.is_hex_group 12 g5 = true ->
  Spec.is_dashed_fingerprint
    (g1 ++ "-"%char :: g2 ++ "-"%char :: g3 ++ "-"%char :: g4
        ++ "-"%char :: g5) = true.
Proof.
  intros H1 H2 H3 H4 H5.
  pose proof H1 as [L1 _]%hex_group_inv.
  pose proof H2 as [L2 _]%hex_group_inv.
  pose proof H3 as [L3 _]%hex_group_inv.
  pose proof H4 as [L4 _]%hex_group_inv.
  do 9 (destruct g1 as [|? g1]; try discriminate L1).
  do 5 (destruct g2 as [|? g2]; try discriminate L2).
  do 5 (destruct g3 as [|? g3]; try discriminate L3).
  do 5 (destruct g4 as [|? g4]; try discriminate L4).
  unfold Spec.is_dashed_fingerprint, Spec.dash_at, slice_to, slice,
    slice_from.
  cbn [app take drop Nat.sub lookup list_lookup]. rewrite drop_0.
  rewrite H1, H2, H3, H4, H5. reflexivity.
Qed.

(** X4.  The dashed rendering of an undashed fingerprint is a dashed
    fingerprint: hexadecimal groups of 8, 4, 4, 4 and 12 characters. *)
Theorem format_key_well_formed F :
  Spec.is_undashed_fingerprint F = true ->
  Spec.is_dashed_fingerprint (format_key F) = true.
Proof.
  intros H. rewrite format_key_unfold. apply dashed_of_groups.
  - apply (hex_group_take 32); [exact H|lia].
  - apply (hex_group_take 24); [|lia]. apply (hex_group_drop 32 8), H.
  - apply (hex_group_take 20); [|lia]. apply (hex_group_drop 32 12), H.
  - apply (hex_group_take 16); [|lia]. apply (hex_group_drop 32 16), H.
  - apply (hex_group_drop 32 20), H.
Qed.

(** The five groups of a dashed fingerprint, each hexadecimal. *)
Lemma dashed_fingerprint_groups D :
  Spec.is_dashed_fingerprint D = true ->
  exists g1 g2 g3 g4 g5,
    D = g1 ++ "-"%char :: g2 ++ "-"%char :: g3 ++ "-"%char :: g4
           ++ "-"%char :: g5
    /\ Spec.is_hex_group 8 g1 = true /\ Spec.is_hex_group 4 g2 = true
    /\ Spec.is_hex_group 4 g3 = true /\ Spec.is_hex_group 4 g4 = true
    /\ Spec.is_hex_group 12 g5 = true.
Proof.
  intros H. pose proof H as (g1 & g2 & g3 & g4 & g5 & E & (L1 & L2 & L3 & L4 & L5) & _)%dashed_fingerprint_inv.
  exists g1, g2, g3, g4, g5. split; [done|].
  revert H. rewrite E.
  do 9 (destruct g1 as [|? g1]; try discriminate L1).
  do 5 (destruct g2 as [|? g2]; try discriminate L2).
  do 5 (destruct g3 as [|? g3]; try discriminate L3).
  do 5 (destruct g4 as [|? g4]; try discriminate L4).
  unfold Spec.is_dashed_fingerprint, Spec.dash_at, slice_to, slice,
    slice_from.
  cbn [app take drop Nat.sub lookup list_lookup]. rewrite drop_0.
  rewrite !andb_true_iff. tauto.
Qed.

(** X5.  Stripping the dashes of a dashed fingerprint gives an undashed
    fingerprint: 32 hexadecimal characters. *)
Theorem canonicalize_well_formed D :
  Spec.is_dashed_fingerprint D = true ->
  Spec.is_undashed_fingerprint (canonicalize D) = true.
Proof.
  intros (g1 & g2 & g3 & g4 & g5 & -> & H1 & H2 & H3 & H4 & H5)
    %dashed_fingerprint_groups.
  pose proof H1 as [_ F1]%hex_group_inv.
  pose proof H2 as [_ F2]%hex_group_inv.
  pose proof H3 as [_ F3]%hex_group_inv.
  pose proof H4 as [_ F4]%hex_group_inv.
  pose proof H5 as [_ F5]%hex_group_inv.
  rewrite !canonicalize_app, !canonicalize_dash.
  rewrite !canonicalize_app, !canonicalize_dash.
  rewrite !canonicalize_app, !canonicalize_dash.
  rewrite !canonicalize_app, !canonicalize_dash.
  rewrite !canonicalize_dash_free by done.
  apply (hex_group_app 8 24); [done|].
  apply (hex_group_app 4 20); [done|].
  apply (hex_group_app 4 16); [done|].
  by apply (hex_group_app 4 12).
Qed.

(** X6.  The canonical key has no dash, whatever the key, and
    canonicalizing it again changes nothing. *)
Theorem canonicalize_canonical key :
  Spec.dash_free (canonicalize key)
  /\ canonicalize (canonicalize key) = canonicalize key.
Proof.
  assert (Spec.dash_free (canonicalize key)) as H.
  { apply Forall_forall. intros c Hc ->. revert Hc.
    rewrite canonicalize_unfold. apply flat_map_char_gone.
    apply not_elem_of_nil. }
  split; [exact H|]. by apply canonicalize_dash_free.
Qed.

End Renderings.

Lemma format_key_well_formed_witness :
  Spec.is_dashed_fingerprint (WatchedImport.format_key Scenario.ep1_key)
  = true.
Proof. apply format_key_well_formed. reflexivity. Defined.

Lemma canonicalize_well_formed_witness :
  Spec.is_undashed_fingerprint
    (WatchedExport.canonicalize Scenario.ep1_dashed) = true.
Proof. apply canonicalize_well_formed. reflexivity. Defined.

Lemma format_key_injective_witness :
  WatchedImport.format_key Scenario.ep1_key
  <> WatchedImport.format_key Scenario.other_key.
Proof. apply format_key_injective. discriminate. Defined.

(** ** Further properties: the export scripts *)

Section Exports.

Import OldDb.

(** X7.  What a record of the artifact carries.  Its key is the key of a
    catalog entry and has no dash; its name and path are those of that
    entry. *)
Theorem exported_record_shape db item :
  item ∈ WatchedExport.main db ->
  exists i key,
    i ∈ TypedBaseItems db
    /\ PresentationUniqueKey i = Some key
    /\ Watched.PresentationUniqueKey item = Some key
    /\ Spec.dash_free key
    /\ Watched.ItemName item = Name i
    /\ Watched.Path item = Path i.
Proof.
  intros (i & d & u & Hi & _ & _ & Hk & _ & _ & ->)%exported_iff.
  exists i, (WatchedExport.canonicalize (Key d)).
  repeat split; try done; cbn; eauto.
  apply Forall_forall. intros c Hc ->. revert Hc.
  rewrite canonicalize_unfold. apply flat_map_char_gone, not_elem_of_nil.
Qed.

(** X8.  Nothing that joins is lost.  A state row whose key, without its
    dashes, is the key of a catalog entry with a path, and whose owner is
    an account, gives a record with the name and path of the entry, the
    position and date of the state row and the username of the account. *)
Theorem joined_rows_exported db i d u :
  i ∈ TypedBaseItems db -> d ∈ UserDatas db -> u ∈ Users db ->
  PresentationUniqueKey i = Some (WatchedExport.canonicalize (Key d)) ->
  UserId d = InternalId u ->
  is_Some (Path i) ->
  {| Watched.ItemName := Name i;
     Watched.Path := Path i;
     Watched.PlaybackPositionTicks := Some (PlaybackPositionTicks d);
     Watched.LastPlayedDate := LastPlayedDate d;
     Watched.Username := Some (Username u);
     Watched.PresentationUniqueKey :=
       Some (WatchedExport.canonicalize (Key d)) |}
  ∈ WatchedExport.main db.
Proof.
  intros Hi Hd Hu Hk Hid Hp. apply exported_iff. by exists i, d, u.
Qed.

(** X9.  A catalog whose keys are stored with dashes joins nothing: the
    artifact is empty, and no error is reported. *)
Theorem dashed_catalog_exports_nothing db :
  (forall i key,
     i ∈ TypedBaseItems db -> PresentationUniqueKey i = Some key ->
     "-"%char ∈ key) ->
  WatchedExport.main db = [].
Proof.
  intros Hdash.
  destruct (WatchedExport.main db) as [|item rest] eqn:E; [done|].
  assert (item ∈ WatchedExport.main db) as Hin by (rewrite E; left).
  apply exported_iff in Hin as (i & d & u & Hi & _ & _ & Hk & _).
  specialize (Hdash i _ Hi Hk). exfalso. revert Hdash.
  rewrite canonicalize_unfold. apply flat_map_char_gone, not_elem_of_nil.
Qed.

(** The loop of the credential exporter, from any state. *)
Lemma credential_loop st rows :
  let kept := filter (fun row : str * option str =>
                        Spec.is_system_account row.1 = false) rows in
  PasswordExtract.users_data (foldl PasswordExtract.loop_body st rows)
  = PasswordExtract.users_data st
    ++ map (fun row : str * option str =>
              {| Credential.username := row.1;
                 Credential.password_hash := row.2 |}) kept
  /\ PasswordExtract.exported_count
       (foldl PasswordExtract.loop_body st rows)
     = (PasswordExtract.exported_count st + length kept)%nat
  /\ PasswordExtract.skipped_count
       (foldl PasswordExtract.loop_body st rows)
     = (PasswordExtract.skipped_count st + (length rows - length kept))%nat
  /\ (length kept <= length rows)%nat.
Proof.
  revert st. induction rows as [|[username password_hash] rows IH];
    intros st; cbn zeta.
  - cbn. rewrite app_nil_r. by repeat split.
  - cbn [foldl]. specialize (IH (PasswordExtract.loop_body st
                                   (username, password_hash))).
    cbn zeta in IH. destruct IH as (IH1 & IH2 & IH3 & IH4).
    rewrite IH1, IH2, IH3, filter_cons.
    unfold PasswordExtract.loop_body. cbn [fst snd].
    change (bool_decide (lower username = lit "jellyfin"))
      with (Spec.is_system_account username).
    destruct (Spec.is_system_account username) eqn:E.
    + rewrite decide_False by done.
      cbn [PasswordExtract.users_data PasswordExtract.exported_count
           PasswordExtract.skipped_count length].
      repeat split; try done; lia.
    + rewrite decide_True by done.
      cbn [PasswordExtract.users_data PasswordExtract.exported_count
           PasswordExtract.skipped_count length map fst snd].
      rewrite <- app_assoc. repeat split; try done; lia.
Qed.

(** X10.  The credential artifact is the table [Users] in its order,
    without the accounts whose lowercased username is [jellyfin]; the two
    counters of the summary are the number of records written and the
    number of accounts left out, and they add up to the number of rows of
    [Users]. *)
Theorem export_user_data_accounting db :
  let kept := filter (fun u => Spec.is_system_account (Username u) = false)
                     (Users db) in
  let st := PasswordExtract.export_user_data db in
  PasswordExtract.users_data st
  = map (fun u => {| Credential.username := Username u;
                     Credential.password_hash := Password u |}) kept
  /\ PasswordExtract.exported_count st = length kept
  /\ PasswordExtract.skipped_count st
     = length (filter (fun u => Spec.is_system_account (Username u) = true)
                      (Users db))
  /\ (PasswordExtract.exported_count st + PasswordExtract.skipped_count st
      = length (Users db))%nat.
Proof.
  cbn zeta. unfold PasswordExtract.export_user_data.
  destruct (credential_loop
              {| PasswordExtract.users_data := [];
                 PasswordExtract.exported_count := 0;
                 PasswordExtract.skipped_count := 0 |}
              (map (fun u => (Username u, Password u)) (Users db)))
    as (H1 & H2 & H3 & H4).
  cbn zeta in *. cbn [PasswordExtract.users_data
    PasswordExtract.exported_count PasswordExtract.skipped_count app
    Nat.add] in *.
  assert (forall us : list User,
    filter (fun row : str * option str =>
              Spec.is_system_account row.1 = false)
           (map (fun u => (Username u, Password u)) us)
    = map (fun u => (Username u, Password u))
          (filter (fun u => Spec.is_system_account (Username u) = false) us))
    as Hfm.
  { induction us as [|u us IH]; [done|].
    cbn [map]. rewrite !filter_cons. cbn [fst].
    destruct (decide _); cbn [map]; by rewrite IH. }
  assert (forall us : list User,
    (length (filter (fun u => Spec.is_system_account (Username u) = true) us)
     + length (filter (fun u => Spec.is_system_account (Username u) = false)
                      us) = length us)%nat) as Hsplit.
  { induction us as [|u us IH]; [done|].
    rewrite !filter_cons.
    destruct (Spec.is_system_account (Username u)) eqn:E.
    - rewrite decide_True, decide_False by done. cbn [length]. lia.
    - rewrite decide_False, decide_True by done. cbn [length]. lia. }
  rewrite Hfm in H1, H2, H3, H4.
  rewrite !length_map in H2, H3, H4.
  specialize (Hsplit (Users db)).
  rewrite H1, H2, H3, map_map, !length_map. cbn [fst snd].
  repeat split; try done; lia.
Qed.

End Exports.

Lemma exported_record_shape_witness :
  exists i key,
    i ∈ OldDb.TypedBaseItems Scenario.source
    /\ OldDb.PresentationUniqueKey i = Some key
    /\ Watched.PresentationUniqueKey Scenario.jellyfin_record = Some key.
Proof.
  destruct (exported_record_shape Scenario.source Scenario.jellyfin_record)
    as (i & key & Hi & Hk & Hr & _).
  - apply list_elem_of_In. vm_compute. by left.
  - by exists i, key.
Defined.

Lemma joined_rows_exported_witness :
  Scenario.folder_record ∈ WatchedExport.main Scenario.source.
Proof.
  apply (joined_rows_exported Scenario.source
           {| OldDb.Name := Some (lit "folder");
              OldDb.Path := Some (lit "");
              OldDb.PresentationUniqueKey := Some Scenario.other_key |}
           {| OldDb.Key := Scenario.other_key;
              OldDb.UserId := 2;
              OldDb.PlaybackPositionTicks := 0;
              OldDb.LastPlayedDate := None |}
           {| OldDb.InternalId := 2;
              OldDb.Username := lit "alice";
              OldDb.Password := Some (lit "$PBKDF2$") |}).
  - apply list_elem_of_In. vm_compute. tauto.
  - apply list_elem_of_In. vm_compute. tauto.
  - apply list_elem_of_In. vm_compute. tauto.
  - reflexivity.
  - reflexivity.
  - by eexists.
Defined.

Lemma dashed_catalog_exports_nothing_witness :
  WatchedExport.main Scenario.dashed_source = [].
Proof.
  apply dashed_catalog_exports_nothing.
  intros i key Hi Hk. apply list_elem_of_In in Hi as [<-|[]].
  injection Hk as <-. apply list_elem_of_In. vm_compute. tauto.
Defined.

(** ** Further properties: the run of the import script *)

Section BatchFacts.

Import NewDb WatchedImport LoaderView.

Implicit Types rows rs : list UserData.

Lemma upserts_elem rows rs x :
  x ∈ foldl insert_or_replace rows rs -> x ∈ rows \/ x ∈ rs.
Proof.
  rewrite upserts_normal_form.
  intros [[_ Hx]%list_elem_of_filter|Hx%last_wins_elem]%elem_of_app; auto.
Qed.

Lemma upserts_elem_of_batch rows rs x :
  x ∈ foldl insert_or_replace rows rs ->
  index_key x ∈ index_key <$> rs -> x ∈ rs.
Proof.
  rewrite upserts_normal_form.
  intros [[Hn _]%list_elem_of_filter|Hx%last_wins_elem]%elem_of_app Hk;
    [by destruct Hn|done].
Qed.

Lemma last_wins_covers rs r :
  r ∈ rs -> exists r', r' ∈ last_wins rs /\ index_key r' = index_key r.
Proof.
  revert r. induction rs as [|x rs IH]; intros r; [by intros H; inversion H|].
  cbn [last_wins]. intros [->|Hr]%elem_of_cons.
  - destruct (decide (index_key x ∈ index_key <$> rs)) as [Hin|Hin].
    + apply list_elem_of_fmap in Hin as (y & Hy & Hin).
      destruct (IH _ Hin) as (r' & Hr' & Hk).
      exists r'. split; [by apply elem_of_app; right|congruence].
    + exists x. split; [by apply elem_of_app; left; left|done].
  - destruct (IH _ Hr) as (r' & Hr' & Hk).
    exists r'. split; [|done]. apply elem_of_app. by right.
Qed.

Lemma upserts_covers_batch rows rs r :
  r ∈ rs ->
  exists r', r' ∈ foldl insert_or_replace rows rs
             /\ index_key r' = index_key r.
Proof.
  intros (r' & Hr' & Hk)%last_wins_covers. exists r'. split; [|done].
  rewrite upserts_normal_form. apply elem_of_app. by right.
Qed.

Lemma upserts_covers_rows rows rs r :
  r ∈ rows ->
  exists r', r' ∈ foldl insert_or_replace rows rs
             /\ index_key r' = index_key r.
Proof.
  intros Hr.
  destruct (decide (index_key r ∈ index_key <$> rs)) as [Hin|Hin].
  - apply list_elem_of_fmap in Hin as (y & Hy & Hin).
    destruct (upserts_covers_batch rows rs y Hin) as (r' & Hr' & Hk).
    exists r'. split; [done|congruence].
  - exists r. split; [|done]. rewrite upserts_normal_form.
    apply elem_of_app. left. by apply list_elem_of_filter.
Qed.

Lemma filter_other_keys_length rows k :
  unique_index rows ->
  (length rows
   <= S (length (filter (fun x => index_key x <> k) rows)))%nat.
Proof.
  unfold unique_index. induction rows as [|x rows IH]; [cbn; lia|].
  rewrite fmap_cons, NoDup_cons. intros [Hx Hrows].
  rewrite filter_cons. destruct (decide (index_key x <> k)) as [Hne|He].
  - cbn [length]. specialize (IH Hrows). lia.
  - rewrite filter_all; [done|].
    intros y Hy Hk. apply Hx. apply dec_stable in He. rewrite He, <- Hk.
    by apply list_elem_of_fmap_2.
Qed.

Lemma insert_or_replace_length rows r :
  (length (insert_or_replace rows r) <= S (length rows))%nat
  /\ (unique_index rows ->
      (length rows <= length (insert_or_replace rows r))%nat).
Proof.
  unfold insert_or_replace. rewrite length_app. cbn [length]. split.
  - pose proof (length_filter (fun x => index_key x <> index_key r) rows).
    lia.
  - intros H%(filter_other_keys_length _ (index_key r)). lia.
Qed.

Lemma upserts_length rows rs :
  (length (foldl insert_or_replace rows rs) <= length rows + length rs)%nat
  /\ (unique_index rows ->
      (length rows <= length (foldl insert_or_replace rows rs))%nat).
Proof.
  revert rows. induction rs as [|r rs IH]; intros rows; cbn [foldl length].
  - split; [lia|done].
  - destruct (IH (insert_or_replace rows r)) as [IH1 IH2].
    destruct (insert_or_replace_length rows r) as [H1 H2]. split.
    + lia.
    + intros Hu. specialize (H2 Hu).
      specialize (IH2 (insert_or_replace_unique _ _ Hu)). lia.
Qed.

End BatchFacts.

Section ResolveFacts.

Import NewDb WatchedImport LoaderView.

Variable user_map : gmap str str.
Variable library : list TypedBaseItem.

(** The row of a record that passes both checks. *)
Lemma resolve_upsert item new_user_id old_path new_pres_key :
  user_map_get user_map (Watched.Username item) = Some new_user_id ->
  truthy (Some new_user_id) = true ->
  Watched.Path item = Some old_path ->
  get_new_presentation_key library (translate_path old_path)
    = Some new_pres_key ->
  truthy (Some new_pres_key) = true ->
  resolve user_map library item
  = Upsert {| Key := format_key new_pres_key;
              UserId := new_user_id;
              Played := 1;
              PlayCount := 1;
              IsFavorite := 0;
              PlaybackPositionTicks := Watched.PlaybackPositionTicks item;
              LastPlayedDate := Watched.LastPlayedDate item;
              AudioStreamIndex := -1;
              SubtitleStreamIndex := -1 |}.
Proof.
  intros Hu Tu Hp Hk Tk. unfold resolve. rewrite Hu, Hp, Hk.
  destruct new_user_id; [done|]. by destruct new_pres_key.
Qed.

Lemma resolve_upsert_inv item r :
  resolve user_map library item = Upsert r ->
  exists new_user_id old_path new_pres_key,
    user_map_get user_map (Watched.Username item) = Some new_user_id
    /\ truthy (Some new_user_id) = true
    /\ Watched.Path item = Some old_path
    /\ get_new_presentation_key library (translate_path old_path)
       = Some new_pres_key
    /\ truthy (Some new_pres_key) = true
    /\ r = {| Key := format_key new_pres_key;
              UserId := new_user_id;
              Played := 1;
              PlayCount := 1;
              IsFavorite := 0;
              PlaybackPositionTicks := Watched.PlaybackPositionTicks item;
              LastPlayedDate := Watched.LastPlayedDate item;
              AudioStreamIndex := -1;
              SubtitleStreamIndex := -1 |}.
Proof.
  unfold resolve.
  destruct (user_map_get _ _) as [[|u0 uid]|] eqn:Hu; try done.
  destruct (Watched.Path item) as [old_path|] eqn:Hp; try done.
  destruct (get_new_presentation_key _ _) as [[|k0 key]|] eqn:Hk; try done.
  intros [= <-]. by exists (u0 :: uid), old_path, (k0 :: key).
Qed.

Lemma batch_elem watched_data r :
  r ∈ batch user_map library watched_data <->
  exists item, item ∈ watched_data
               /\ resolve user_map library item = Upsert r.
Proof.
  unfold batch. rewrite list_elem_of_In, in_flat_map. split.
  - intros (item & Hitem & Hr). exists item.
    split; [by apply list_elem_of_In|].
    destruct (resolve _ _ item); try by destruct Hr.
    by destruct Hr as [->|[]].
  - intros (item & Hitem & Hr). exists item.
    split; [by apply list_elem_of_In|]. rewrite Hr. by left.
Qed.

Lemma batch_fixed_fields watched_data r :
  r ∈ batch user_map library watched_data -> Spec.has_fixed_fields r.
Proof.
  intros (item & _ & (u & p & k & _ & _ & _ & _ & _ & ->)%resolve_upsert_inv)
    %batch_elem.
  by repeat split.
Qed.

Lemma batch_length watched_data :
  (length (batch user_map library watched_data) <= length watched_data)%nat.
Proof.
  induction watched_data as [|item wd IH]; [done|].
  change (item :: wd) with ([item] ++ wd).
  rewrite batch_app, !length_app. unfold batch at 1. cbn [flat_map].
  destruct (resolve _ _ item); cbn [length app]; lia.
Qed.

End ResolveFacts.

Section RunProperties.

Import NewDb WatchedImport LoaderView.

Variable execute_raises : list UserData -> UserData -> bool.
Variable commit_raises : list UserData -> bool.

Local Abbreviation main := (WatchedImport.main execute_raises commit_raises).

(** The table after a committed run, in terms of the batch. *)
Lemma committed_table db wd :
  how (main db wd) = Committed ->
  UserDatas_after (main db wd)
  = foldl insert_or_replace (UserDatas db)
      (batch (get_user_map (Users db)) (TypedBaseItems db) wd).
Proof.
  intros Hc.
  destruct (main_cases execute_raises commit_raises db wd)
    as [(_ & H & _)|[(H & _)|(e & H & _)]]; [done|congruence..].
Qed.

(** The loop behind a committed run. *)
Lemma committed_loop db wd :
  how (main db wd) = Committed ->
  exists st,
    for_each execute_raises (get_user_map (Users db)) (TypedBaseItems db) wd
      (initial_state db wd) = Ok st
    /\ output (main db wd)
       = stdout st ++ [MigrationComplete (migrated_count st);
                       ConnectionsClosed].
Proof.
  unfold WatchedImport.main.
  destruct (for_each _ _ _ _ _) as [st|e st]; cbn [bind].
  - unfold commit. destruct (commit_raises (pending st)); [done|].
    intros _. exists st. split; [done|]. cbn. by rewrite <- app_assoc.
  - by destruct e.
Qed.

Lemma skip_lines_snoc out m :
  Spec.skip_lines (out ++ [m])
  = (Spec.skip_lines out + if Spec.is_skip_line m then 1 else 0)%nat.
Proof.
  unfold Spec.skip_lines. rewrite filter_app, length_app, filter_cons.
  destruct (Spec.is_skip_line m).
  - by rewrite decide_True.
  - by rewrite decide_False.
Qed.

(** Each turn of the loop that goes through counts its record once. *)
Lemma loop_body_counts um lib item st st' :
  loop_body execute_raises um lib item st = Ok st' ->
  (migrated_count st' + Spec.skip_lines (stdout st')
   = S (migrated_count st + Spec.skip_lines (stdout st)))%nat.
Proof.
  rewrite loop_body_resolve.
  destruct (resolve um lib item) as [| |p|r].
  - intros [= <-]. cbn [print migrated_count stdout].
    rewrite skip_lines_snoc. cbn. lia.
  - done.
  - intros [= <-]. cbn [print migrated_count stdout].
    rewrite skip_lines_snoc. cbn. lia.
  - unfold execute_insert. destruct (binds r); [|done]. cbn [negb].
    destruct (execute_raises _ _); [done|].
    cbn [bind increment_migrated_count]. intros [= <-].
    cbn [migrated_count stdout pending]. lia.
Qed.

Lemma for_each_counts um lib items st st' :
  for_each execute_raises um lib items st = Ok st' ->
  (migrated_count st' + Spec.skip_lines (stdout st')
   = migrated_count st + Spec.skip_lines (stdout st) + length items)%nat.
Proof.
  revert st. induction items as [|item items IH]; intros st.
  - intros [= <-]. cbn. lia.
  - cbn [WatchedImport.for_each].
    destruct (loop_body _ _ _ item st) as [st1|] eqn:E; [|done].
    cbn [bind]. intros H%IH. apply loop_body_counts in E.
    cbn [length]. lia.
Qed.

(** X11.  The rows of the table after a run.  Every row is either a row
    that the table had before the run, or the row of a record of the
    artifact whose username is in the user map and whose translated path
    the catalog resolves: dashed key, that user's id, the fixed values,
    and the position and date of that record. *)
Theorem rows_after_run db watched_data r :
  r ∈ UserDatas_after (main db watched_data) ->
  r ∈ UserDatas db
  \/ exists item new_user_id old_path new_pres_key,
       item ∈ watched_data
       /\ user_map_get (get_user_map (Users db)) (Watched.Username item)
          = Some new_user_id
       /\ Watched.Path item = Some old_path
       /\ get_new_presentation_key (TypedBaseItems db)
            (translate_path old_path) = Some new_pres_key
       /\ r = {| Key := format_key new_pres_key;
                 UserId := new_user_id;
                 Played := 1;
                 PlayCount := 1;
                 IsFavorite := 0;
                 PlaybackPositionTicks := Watched.PlaybackPositionTicks item;
                 LastPlayedDate := Watched.LastPlayedDate item;
                 AudioStreamIndex := -1;
                 SubtitleStreamIndex := -1 |}.
Proof.
  destruct (main_cases execute_raises commit_raises db watched_data)
    as [(_ & -> & _)|[(_ & -> & _)|(e & _ & -> & _)]]; [|by left..].
  intros [Hr|Hr]%upserts_elem; [by left|right].
  apply batch_elem in Hr as (item & Hitem & Hr).
  apply resolve_upsert_inv in Hr as (u & p & k & Hu & _ & Hp & Hk & _ & ->).
  by exists item, u, p, k.
Qed.

(** X12.  A migrated pair is overwritten, not merged.  After a committed
    run, the table has a row for the pair (dashed key, user id) of every
    record that passed both checks, and every row for that pair has the
    fixed values: what an older row held for the pair (play count,
    favourite flag, stream indexes) is gone. *)
Theorem migrated_pair_overwritten db watched_data item
    new_user_id old_path new_pres_key :
  item ∈ watched_data ->
  user_map_get (get_user_map (Users db)) (Watched.Username item)
    = Some new_user_id ->
  truthy (Some new_user_id) = true ->
  Watched.Path item = Some old_path ->
  get_new_presentation_key (TypedBaseItems db) (translate_path old_path)
    = Some new_pres_key ->
  truthy (Some new_pres_key) = true ->
  how (main db watched_data) = Committed ->
  (exists r, r ∈ UserDatas_after (main db watched_data)
             /\ index_key r = (format_key new_pres_key, new_user_id))
  /\ forall r, r ∈ UserDatas_after (main db watched_data) ->
               index_key r = (format_key new_pres_key, new_user_id) ->
               Spec.has_fixed_fields r.
Proof.
  intros Hitem Hu Tu Hp Hk Tk Hc.
  rewrite (committed_table _ _ Hc).
  pose proof (resolve_upsert _ _ _ _ _ _ Hu Tu Hp Hk Tk) as Hres.
  assert (exists row, row ∈ batch (get_user_map (Users db))
                              (TypedBaseItems db) watched_data
                      /\ index_key row = (format_key new_pres_key, new_user_id))
    as (row & Hrow & Hkey).
  { eexists. split; [apply batch_elem; by exists item|done]. }
  split.
  - destruct (upserts_covers_batch (UserDatas db) _ _ Hrow) as (r & Hr & E).
    exists r. split; [done|congruence].
  - intros r Hr E. eapply batch_fixed_fields.
    eapply upserts_elem_of_batch; [exact Hr|].
    rewrite E, <- Hkey. by apply list_elem_of_fmap_2.
Qed.

(** X13.  The last record of the artifact, when it passes both checks
    and the run commits, is the last row of the table, with its own
    position and date. *)
Theorem last_record_lands db l1 item new_user_id old_path new_pres_key :
  user_map_get (get_user_map (Users db)) (Watched.Username item)
    = Some new_user_id ->
  truthy (Some new_user_id) = true ->
  Watched.Path item = Some old_path ->
  get_new_presentation_key (TypedBaseItems db) (translate_path old_path)
    = Some new_pres_key ->
  truthy (Some new_pres_key) = true ->
  how (main db (l1 ++ [item])) = Committed ->
  last (UserDatas_after (main db (l1 ++ [item])))
  = Some {| Key := format_key new_pres_key;
            UserId := new_user_id;
            Played := 1;
            PlayCount := 1;
            IsFavorite := 0;
            PlaybackPositionTicks := Watched.PlaybackPositionTicks item;
            LastPlayedDate := Watched.LastPlayedDate item;
            AudioStreamIndex := -1;
            SubtitleStreamIndex := -1 |}.
Proof.
  intros Hu Tu Hp Hk Tk Hc.
  rewrite (committed_table _ _ Hc), batch_app, foldl_app.
  replace (batch (get_user_map (Users db)) (TypedBaseItems db) [item])
    with [{| Key := format_key new_pres_key;
             UserId := new_user_id;
             Played := 1;
             PlayCount := 1;
             IsFavorite := 0;
             PlaybackPositionTicks := Watched.PlaybackPositionTicks item;
             LastPlayedDate := Watched.LastPlayedDate item;
             AudioStreamIndex := -1;
             SubtitleStreamIndex := -1 |}].
  - cbn [foldl]. unfold insert_or_replace. apply last_snoc.
  - unfold batch. cbn [flat_map].
    by rewrite (resolve_upsert _ _ _ _ _ _ Hu Tu Hp Hk Tk).
Qed.

(** X14.  No pair disappears.  However the run ends, every pair
    [(Key, UserId)] that had a row before the run has a row after it. *)
Theorem no_pair_lost db watched_data r :
  r ∈ UserDatas db ->
  exists r', r' ∈ UserDatas_after (main db watched_data)
             /\ index_key r' = index_key r.
Proof.
  intros Hr.
  destruct (main_cases execute_raises commit_raises db watched_data)
    as [(_ & -> & _)|[(_ & -> & _)|(e & _ & -> & _)]];
    [by apply upserts_covers_rows|by exists r..].
Qed.

(** X15.  The number of rows of the table.  On a table with at most one
    row for each pair [(Key, UserId)], a run never lowers the number of
    rows (a row that it replaces is deleted and one row is inserted for
    it), and it raises the number by at most one for each record of the
    artifact. *)
Theorem table_size_after_run db watched_data :
  unique_index (UserDatas db) ->
  (length (UserDatas db)
   <= length (UserDatas_after (main db watched_data))
   <= length (UserDatas db) + length watched_data)%nat.
Proof.
  intros Hu.
  destruct (main_cases execute_raises commit_raises db watched_data)
    as [(_ & -> & _)|[(_ & -> & _)|(e & _ & -> & _)]]; [|lia..].
  destruct (upserts_length (UserDatas db)
              (batch (get_user_map (Users db)) (TypedBaseItems db)
                 watched_data)) as [H1 H2].
  specialize (H2 Hu).
  pose proof (batch_length (get_user_map (Users db)) (TypedBaseItems db)
                watched_data).
  lia.
Qed.

(** X16.  Every record is accounted for.  In the output of a committed
    run, the number of the completion line and the number of skip lines
    add up to the number of records of the artifact. *)
Theorem records_accounted_for db watched_data :
  how (main db watched_data) = Committed ->
  exists n,
    Spec.run_end_summary (output (main db watched_data))
    = [MigrationComplete n; ConnectionsClosed]
    /\ (n + Spec.skip_lines (output (main db watched_data))
        = length watched_data)%nat.
Proof.
  intros Hc. destruct (committed_loop _ _ Hc) as (st & Hloop & Hout).
  exists (migrated_count st). split.
  - rewrite Hout. apply summary_snoc; [|by repeat constructor].
    pose proof (for_each_summary execute_raises
                  (get_user_map (Users db)) (TypedBaseItems db)
                  watched_data (initial_state db watched_data)) as Hs.
    by rewrite Hloop in Hs.
  - apply for_each_counts in Hloop.
    assert (migrated_count (initial_state db watched_data)
            + Spec.skip_lines (stdout (initial_state db watched_data))
            = 0)%nat as Hinit by done.
    rewrite Hout.
    change (stdout st ++ [MigrationComplete (migrated_count st);
                          ConnectionsClosed])
      with (stdout st ++ [MigrationComplete (migrated_count st)]
                      ++ [ConnectionsClosed]).
    rewrite app_assoc, !skip_lines_snoc. cbn [Spec.is_skip_line]. lia.
Qed.

(** X17.  A record without a path, for a known user, ends the run with
    an [AttributeError] that nothing catches: nothing is committed, the
    rows that earlier records wrote in the transaction are lost, and
    neither the error line nor the completion line is printed. *)
Theorem missing_path_aborts_run db l1 item l2 st new_user_id :
  for_each execute_raises (get_user_map (Users db)) (TypedBaseItems db) l1
    (initial_state db (l1 ++ item :: l2)) = Ok st ->
  user_map_get (get_user_map (Users db)) (Watched.Username item)
    = Some new_user_id ->
  truthy (Some new_user_id) = true ->
  Watched.Path item = None ->
  how (main db (l1 ++ item :: l2)) = Uncaught AttributeError
  /\ UserDatas_after (main db (l1 ++ item :: l2)) = UserDatas db
  /\ Spec.run_end_summary (output (main db (l1 ++ item :: l2)))
     = [ConnectionsClosed].
Proof.
  intros Hloop Hu Tu Hp.
  assert (for_each execute_raises (get_user_map (Users db))
            (TypedBaseItems db) (l1 ++ item :: l2)
            (initial_state db (l1 ++ item :: l2)) = Raise AttributeError st)
    as Hraise.
  { rewrite for_each_app, Hloop. cbn [bind WatchedImport.for_each].
    unfold loop_body. rewrite Hu, Hp. by destruct new_user_id. }
  apply (main_raise _ commit_raises) in Hraise as [Hstore Hhow].
  split; [done|]. split; [done|].
  by rewrite main_summary, Hhow.
Qed.

(** X18.  A commit that fails is rolled back: the table is what it was
    before the run, and the run prints the error line. *)
Theorem failed_commit_rolls_back db watched_data st :
  for_each execute_raises (get_user_map (Users db)) (TypedBaseItems db)
    watched_data (initial_state db watched_data) = Ok st ->
  commit_raises (pending st) = true ->
  how (main db watched_data) = RolledBack
  /\ UserDatas_after (main db watched_data) = UserDatas db
  /\ Spec.run_end_summary (output (main db watched_data))
     = [ErrorDuringMigration; ConnectionsClosed].
Proof.
  intros Hloop Hcommit.
  assert (how (main db watched_data) = RolledBack
          /\ UserDatas_after (main db watched_data) = UserDatas db)
    as [Hhow Hstore].
  { unfold WatchedImport.main. rewrite Hloop. cbn [bind]. unfold commit.
    by rewrite Hcommit. }
  split; [done|]. split; [done|]. by rewrite main_summary, Hhow.
Qed.

(** X19.  From the source to the destination.  Take a state row of the
    source that joins a catalog entry with a path and an account.  If the
    destination knows the username and its catalog resolves the
    translated path, then after a committed import of the exported
    artifact the destination has a row for the pair (dashed destination
    key, destination user id), with the fixed values. *)
Theorem pipeline_transfers_watch_state old_db db i d u old_path
    new_user_id new_pres_key :
  i ∈ OldDb.TypedBaseItems old_db ->
  d ∈ OldDb.UserDatas old_db ->
  u ∈ OldDb.Users old_db ->
  OldDb.PresentationUniqueKey i
    = Some (WatchedExport.canonicalize (OldDb.Key d)) ->
  OldDb.UserId d = OldDb.InternalId u ->
  OldDb.Path i = Some old_path ->
  get_user_map (Users db) !! OldDb.Username u = Some new_user_id ->
  truthy (Some new_user_id) = true ->
  get_new_presentation_key (TypedBaseItems db) (translate_path old_path)
    = Some new_pres_key ->
  truthy (Some new_pres_key) = true ->
  how (main db (WatchedExport.main old_db)) = Committed ->
  exists r,
    r ∈ UserDatas_after (main db (WatchedExport.main old_db))
    /\ Key r = format_key new_pres_key
    /\ UserId r = new_user_id
    /\ Spec.has_fixed_fields r.
Proof.
  intros Hi Hd Hu Hk Hid Hp Hmap Tu Hkey Tk Hc.
  set (item := {| Watched.ItemName := OldDb.Name i;
                  Watched.Path := OldDb.Path i;
                  Watched.PlaybackPositionTicks :=
                    Some (OldDb.PlaybackPositionTicks d);
                  Watched.LastPlayedDate := OldDb.LastPlayedDate d;
                  Watched.Username := Some (OldDb.Username u);
                  Watched.PresentationUniqueKey :=
                    Some (WatchedExport.canonicalize (OldDb.Key d)) |}).
  assert (item ∈ WatchedExport.main old_db) as Hitem.
  { apply exported_iff. exists i, d, u.
    repeat split; done. }
  assert (resolve (get_user_map (Users db)) (TypedBaseItems db) item
          = Upsert {| Key := format_key new_pres_key;
                      UserId := new_user_id;
                      Played := 1; PlayCount := 1; IsFavorite := 0;
                      PlaybackPositionTicks :=
                        Watched.PlaybackPositionTicks item;
                      LastPlayedDate := Watched.LastPlayedDate item;
                      AudioStreamIndex := -1;
                      SubtitleStreamIndex := -1 |}) as Hres.
  { by apply (resolve_upsert _ _ item new_user_id old_path new_pres_key). }
  rewrite (committed_table _ _ Hc).
  assert (exists row, row ∈ batch (get_user_map (Users db))
                              (TypedBaseItems db) (WatchedExport.main old_db)
                      /\ index_key row = (format_key new_pres_key, new_user_id))
    as (row & Hrow & Hrk).
  { eexists. split; [apply batch_elem; by exists item|done]. }
  destruct (upserts_covers_batch (UserDatas db) _ _ Hrow) as (r & Hr & E).
  exists r. rewrite Hrk in E. injection E as E1 E2.
  split; [done|]. split; [done|]. split; [done|].
  eapply batch_fixed_fields. eapply upserts_elem_of_batch; [exact Hr|].
  change (index_key r) with (Key r, UserId r). rewrite E1, E2, <- Hrk.
  by apply list_elem_of_fmap_2.
Qed.

End RunProperties.

Section PathProperties.

Import WatchedImport.

(** X20.  The translated path has no backslash, and a path that has none
    to begin with is returned as it is: a destination path given to
    [translate_path] is not changed. *)
Theorem translate_path_posix windows_path :
  (Spec.backslash ∉ translate_path windows_path)
  /\ (Spec.backslash ∉ windows_path ->
      translate_path windows_path = windows_path).
Proof.
  split; [apply translate_path_no_backslash|].
  intros H. rewrite translate_path_unmatched by (by apply source_prefix_absent).
  by apply normalize_separators_fixed.
Qed.

End PathProperties.

(** ** Runs of the scenarios, continued *)

Lemma rows_after_run_witness :
  Scenario.ep1_row ∈ NewDb.UserDatas Scenario.destination
  \/ exists item new_user_id old_path new_pres_key,
       item ∈ [Scenario.watched "alice"]
       /\ WatchedImport.user_map_get
            (WatchedImport.get_user_map (NewDb.Users Scenario.destination))
            (Watched.Username item) = Some new_user_id
       /\ Watched.Path item = Some old_path
       /\ WatchedImport.get_new_presentation_key
            (NewDb.TypedBaseItems Scenario.destination)
            (WatchedImport.translate_path old_path) = Some new_pres_key
       /\ Scenario.ep1_row
          = {| NewDb.Key := WatchedImport.format_key new_pres_key;
               NewDb.UserId := new_user_id;
               NewDb.Played := 1;
               NewDb.PlayCount := 1;
               NewDb.IsFavorite := 0;
               NewDb.PlaybackPositionTicks :=
                 Watched.PlaybackPositionTicks item;
               NewDb.LastPlayedDate := Watched.LastPlayedDate item;
               NewDb.AudioStreamIndex := -1;
               NewDb.SubtitleStreamIndex := -1 |}.
Proof.
  apply (rows_after_run Scenario.accepts Scenario.commits
           Scenario.destination [Scenario.watched "alice"] Scenario.ep1_row).
  apply list_elem_of_In. vm_compute. by left.
Defined.

Lemma migrated_pair_overwritten_witness :
  exists r,
    r ∈ WatchedImport.UserDatas_after
          (WatchedImport.main Scenario.accepts Scenario.commits
             Scenario.destination
             [Scenario.watched "alice"; Scenario.watched "bob"])
    /\ NewDb.index_key r = (Scenario.ep1_dashed, lit "a11ce").
Proof.
  destruct (migrated_pair_overwritten Scenario.accepts Scenario.commits
              Scenario.destination
              [Scenario.watched "alice"; Scenario.watched "bob"]
              (Scenario.watched "alice") (lit "a11ce")
              (lit "F:\Media\Show\ep1.mkv") Scenario.ep1_key)
    as [H _].
  - by left.
  - reflexivity.
  - reflexivity.
  - reflexivity.
  - reflexivity.
  - reflexivity.
  - reflexivity.
  - exact H.
Defined.

Lemma last_record_lands_witness :
  last (WatchedImport.UserDatas_after
          (WatchedImport.main Scenario.accepts Scenario.commits
             Scenario.destination
             ([Scenario.watched "bob"] ++ [Scenario.watched "alice"])))
  = Some Scenario.ep1_row.
Proof.
  apply (last_record_lands Scenario.accepts Scenario.commits
           Scenario.destination [Scenario.watched "bob"]
           (Scenario.watched "alice") (lit "a11ce")
           (lit "F:\Media\Show\ep1.mkv") Scenario.ep1_key);
    reflexivity.
Defined.

Lemma no_pair_lost_witness :
  exists r',
    r' ∈ WatchedImport.UserDatas_after
           (WatchedImport.main Scenario.accepts Scenario.commits
              Scenario.destination [Scenario.watched "alice"])
    /\ NewDb.index_key r' = NewDb.index_key Scenario.old_row.
Proof.
  apply (no_pair_lost Scenario.accepts Scenario.commits Scenario.destination
           [Scenario.watched "alice"] Scenario.old_row).
  by left.
Defined.

Lemma table_size_after_run_witness :
  (length (NewDb.UserDatas Scenario.two_episodes)
   <= length (WatchedImport.UserDatas_after
                (WatchedImport.main Scenario.accepts Scenario.commits
                   Scenario.two_episodes
                   [Scenario.watched "alice"; Scenario.no_position]))
   <= length (NewDb.UserDatas Scenario.two_episodes) + 2)%nat.
Proof.
  apply (table_size_after_run Scenario.accepts Scenario.commits
           Scenario.two_episodes
           [Scenario.watched "alice"; Scenario.no_position]).
  apply NoDup_singleton.
Defined.

Lemma records_accounted_for_witness :
  exists n,
    Spec.run_end_summary
      (WatchedImport.output
         (WatchedImport.main Scenario.accepts Scenario.commits
            Scenario.destination
            [Scenario.watched "bob"; Scenario.watched "alice"]))
    = [WatchedImport.MigrationComplete n; WatchedImport.ConnectionsClosed]
    /\ (n + Spec.skip_lines
              (WatchedImport.output
                 (WatchedImport.main Scenario.accepts Scenario.commits
                    Scenario.destination
                    [Scenario.watched "bob"; Scenario.watched "alice"]))
        = 2)%nat.
Proof.
  apply (records_accounted_for Scenario.accepts Scenario.commits
           Scenario.destination
           [Scenario.watched "bob"; Scenario.watched "alice"]).
  reflexivity.
Defined.

Lemma missing_path_aborts_run_witness :
  WatchedImport.how
    (WatchedImport.main Scenario.accepts Scenario.commits
       Scenario.destination ([Scenario.watched "alice"]
                             ++ Scenario.no_path :: []))
  = WatchedImport.Uncaught AttributeError
  /\ WatchedImport.UserDatas_after
       (WatchedImport.main Scenario.accepts Scenario.commits
          Scenario.destination ([Scenario.watched "alice"]
                                ++ Scenario.no_path :: []))
     = [Scenario.old_row].
Proof.
  edestruct (missing_path_aborts_run Scenario.accepts Scenario.commits
               Scenario.destination [Scenario.watched "alice"]
               Scenario.no_path []) as (H1 & H2 & _).
  - vm_compute. reflexivity.
  - reflexivity.
  - reflexivity.
  - reflexivity.
  - split; [exact H1|exact H2].
Defined.

Lemma failed_commit_rolls_back_witness :
  WatchedImport.how
    (WatchedImport.main Scenario.accepts Scenario.commit_fails
       Scenario.destination [Scenario.watched "alice"])
  = WatchedImport.RolledBack
  /\ WatchedImport.UserDatas_after
       (WatchedImport.main Scenario.accepts Scenario.commit_fails
          Scenario.destination [Scenario.watched "alice"])
     = [Scenario.old_row].
Proof.
  edestruct (failed_commit_rolls_back Scenario.accepts Scenario.commit_fails
               Scenario.destination [Scenario.watched "alice"])
    as (H1 & H2 & _).
  - vm_compute. reflexivity.
  - reflexivity.
  - split; [exact H1|exact H2].
Defined.

Lemma pipeline_transfers_watch_state_witness :
  exists r,
    r ∈ WatchedImport.UserDatas_after
          (WatchedImport.main Scenario.accepts Scenario.commits
             Scenario.destination_with_admin
             (WatchedExport.main Scenario.source))
    /\ NewDb.Key r = Scenario.ep1_dashed
    /\ NewDb.UserId r = lit "adm1n"
    /\ Spec.has_fixed_fields r.
Proof.
  apply (pipeline_transfers_watch_state Scenario.accepts Scenario.commits
           Scenario.source Scenario.destination_with_admin
           {| OldDb.Name := Some (lit "ep1");
              OldDb.Path := Some (lit "F:\Media\Show\ep1.mkv");
              OldDb.PresentationUniqueKey := Some Scenario.ep1_key |}
           {| OldDb.Key := Scenario.ep1_dashed;
              OldDb.UserId := 1;
              OldDb.PlaybackPositionTicks := 500;
              OldDb.LastPlayedDate := None |}
           {| OldDb.InternalId := 1;
              OldDb.Username := lit "Jellyfin";
              OldDb.Password := None |}
           (lit "F:\Media\Show\ep1.mkv") (lit "adm1n") Scenario.ep1_key).
  - apply list_elem_of_In. vm_compute. tauto.
  - apply list_elem_of_In. vm_compute. tauto.
  - apply list_elem_of_In. vm_compute. tauto.
  - reflexivity.
  - reflexivity.
  - reflexivity.
  - reflexivity.
  - reflexivity.
  - reflexivity.
  - reflexivity.
  - reflexivity.
Defined.

Lemma translate_path_posix_witness :
  WatchedImport.translate_path (lit "/media/Show/ep1.mkv")
  = lit "/media/Show/ep1.mkv".
Proof.
  apply (translate_path_posix (lit "/media/Show/ep1.mkv")).
  intros H%list_elem_of_In. vm_compute in H. intuition discriminate.
Defined.

(** ** Further properties: the password import *)

Section PasswordTransfer.

Import PasswordImport.

Implicit Types d items : list (str * option str).
Implicit Types rows : list user_row.

Lemma dict_get_set d k v k' :
  dict_get (dict_set d k v) k'
  = if decide (k = k') then Some v else dict_get d k'.
Proof.
  induction d as [|[k0 v0] d IH]; cbn [dict_set dict_get].
  - by destruct (decide (k = k')).
  - destruct (decide (k0 = k)) as [->|Hne]; cbn [dict_get].
    + by destruct (decide (k = k')).
    + rewrite IH. destruct (decide (k0 = k')) as [->|]; [|done].
      by rewrite decide_False.
Qed.

Lemma dict_set_elem d k v k' v' :
  (k', v') ∈ dict_set d k v -> (k', v') = (k, v) \/ (k', v') ∈ d.
Proof.
  induction d as [|[k0 v0] d IH]; cbn [dict_set].
  - intros ->%list_elem_of_singleton. by left.
  - destruct (decide (k0 = k)) as [->|Hne].
    + intros [->|H]%elem_of_cons; [by left|]. right. by right.
    + intros [->|H]%elem_of_cons; [right; by left|].
      destruct (IH H); [by left|]. right. by right.
Qed.

Lemma dict_set_keys d k v :
  (dict_set d k v).*1 = if decide (k ∈ d.*1) then d.*1 else d.*1 ++ [k].
Proof.
  induction d as [|[k0 v0] d IH]; cbn [dict_set].
  - rewrite decide_False; [done|]. apply not_elem_of_nil.
  - destruct (decide (k0 = k)) as [->|Hne]; cbn [fmap list_fmap fst].
    + rewrite decide_True; [done|]. by left.
    + change (list_fmap _ _ fst ?l) with (l.*1). rewrite IH.
      destruct (decide (k ∈ d.*1)) as [Hin|Hin].
      * rewrite decide_True; [done|]. by right.
      * rewrite decide_False; [done|].
        intros [->|H]%elem_of_cons; done.
Qed.

Lemma dict_set_NoDup d k v : NoDup d.*1 -> NoDup (dict_set d k v).*1.
Proof.
  intros H. rewrite dict_set_keys. destruct (decide (k ∈ d.*1)); [done|].
  apply NoDup_app. split; [done|]. split; [|apply NoDup_singleton].
  by intros x Hx ->%list_elem_of_singleton.
Qed.

Lemma old_users_data_snoc old_users u :
  old_users_data (old_users ++ [u])
  = dict_set (old_users_data old_users) (OldDb.Username u)
      (OldDb.Password u).
Proof. unfold old_users_data. by rewrite foldl_app. Qed.

Lemma old_users_data_NoDup old_users : NoDup (old_users_data old_users).*1.
Proof.
  induction old_users as [|u old_users IH] using rev_ind.
  - constructor.
  - rewrite old_users_data_snoc. by apply dict_set_NoDup.
Qed.

(** The dict holds, for a username, the password of the last row with
    that username. *)
Lemma old_users_data_get old_users k :
  dict_get (old_users_data old_users) k
  = OldDb.Password
      <$> last (filter (fun u => OldDb.Username u = k) old_users).
Proof.
  induction old_users as [|u old_users IH] using rev_ind; [done|].
  rewrite old_users_data_snoc, dict_get_set, filter_app, filter_cons,
    filter_nil.
  destruct (decide (OldDb.Username u = k)) as [E|E].
  - by rewrite last_snoc.
  - by rewrite app_nil_r.
Qed.

Lemma old_users_data_elem old_users k v :
  (k, v) ∈ old_users_data old_users ->
  exists u, u ∈ old_users /\ OldDb.Username u = k /\ OldDb.Password u = v.
Proof.
  induction old_users as [|u old_users IH] using rev_ind.
  - intros H. inversion H.
  - rewrite old_users_data_snoc.
    intros [[= -> ->]|H]%dict_set_elem.
    + exists u. split; [|done]. apply elem_of_app. right. by left.
    + destruct (IH H) as (u' & Hu' & E). exists u'.
      split; [|done]. apply elem_of_app. by left.
Qed.

Lemma update_password_usernames rows v k :
  Username <$> update_password rows v k = Username <$> rows.
Proof.
  unfold update_password. rewrite <- list_fmap_compose.
  apply list_fmap_ext. intros i r _. cbn. by destruct (decide _).
Qed.

End PasswordTransfer.

Section PasswordRun.

Import PasswordImport.

Variable update_raises : list user_row -> str -> option str -> bool.
Variable commit_raises : list user_row -> bool.

Implicit Types items : list (str * option str).
Implicit Types rows : list user_row.

Lemma password_frame_refl old_users r : Spec.password_frame old_users r r.
Proof. split; [done|]. split; [done|]. by left. Qed.

Lemma password_frame_trans old_users r1 r2 r3 :
  Spec.password_frame old_users r1 r2 ->
  Spec.password_frame old_users r2 r3 ->
  Spec.password_frame old_users r1 r3.
Proof.
  intros (U1 & I1 & P1) (U2 & I2 & P2).
  split; [congruence|]. split; [congruence|].
  destruct P2 as [E2|(S2 & u & Hu & Eu & Ep)].
  - destruct P1 as [E1|(S1 & u & Hu & Eu & Ep)]; [left; congruence|].
    right. split; [done|]. exists u. split; [done|]. split; congruence.
  - right. split; [congruence|]. exists u. split; [done|].
    split; congruence.
Qed.

Lemma update_password_frame old_users rows u :
  u ∈ old_users ->
  Spec.is_system_account (OldDb.Username u) = false ->
  Forall2 (Spec.password_frame old_users) rows
    (update_password rows (OldDb.Password u) (OldDb.Username u)).
Proof.
  intros Hu Hs. unfold update_password.
  apply Forall2_fmap_r, Forall_Forall2_diag, Forall_forall. intros r _.
  unfold compose. cbn beta.
  destruct (decide (Username r = OldDb.Username u)) as [E|E].
  - unfold Spec.password_frame. cbn [Username Password Id].
    split; [done|]. split; [done|]. right. rewrite E.
    split; [done|]. by exists u.
  - apply password_frame_refl.
Qed.

Lemma loop_body_frame old_users users_in_new st item :
  item ∈ old_users_data old_users ->
  Forall2 (Spec.password_frame old_users) (pending st)
    (pending (loop_body update_raises users_in_new st item)).
Proof.
  destruct item as [k v]. intros (u & Hu & <- & <-)%old_users_data_elem.
  unfold loop_body.
  change (bool_decide (lower (OldDb.Username u) = lit "jellyfin"))
    with (Spec.is_system_account (OldDb.Username u)).
  destruct (Spec.is_system_account (OldDb.Username u)) eqn:Hs; cbn [pending].
  { apply Forall_Forall2_diag, Forall_forall. intros r _.
    apply password_frame_refl. }
  destruct (bool_decide _); [|cbn [pending];
    apply Forall_Forall2_diag, Forall_forall; intros r _;
    apply password_frame_refl].
  destruct (update_raises _ _ _); cbn [pending].
  - apply Forall_Forall2_diag, Forall_forall. intros r _.
    apply password_frame_refl.
  - by apply update_password_frame.
Qed.

Lemma loop_frame old_users users_in_new items st :
  (forall item, item ∈ items -> item ∈ old_users_data old_users) ->
  Forall2 (Spec.password_frame old_users) (pending st)
    (pending (foldl (loop_body update_raises users_in_new) st items)).
Proof.
  revert st. induction items as [|item items IH]; intros st Hall.
  - apply Forall_Forall2_diag, Forall_forall. intros r _.
    apply password_frame_refl.
  - cbn [foldl].
    eapply Forall2_trans; [apply password_frame_trans| |].
    + apply (loop_body_frame old_users users_in_new st item).
      apply Hall. by left.
    + apply IH. intros x Hx. apply Hall. by right.
Qed.

(** X21.  What the password import can change.  Whatever the store does,
    the table [Users] after the run has the same rows in the same order
    with the same usernames and ids; a row has either the password it
    had, or the password of an old account with the same username, and
    then that username is not the system account's. *)
Theorem password_import_frame old_users new_users :
  Forall2 (Spec.password_frame old_users) new_users
    (Users_after (transfer_password_hashes update_raises commit_raises
                    old_users new_users)).
Proof.
  unfold transfer_password_hashes. cbn zeta.
  destruct (commit_raises _); cbn [Users_after].
  - apply Forall_Forall2_diag, Forall_forall. intros r _.
    apply password_frame_refl.
  - apply (loop_frame old_users (new_users_set new_users)
             (old_users_data old_users)
             {| pending := new_users; updated_count := 0;
                skipped_count := 0;
                stdout := [Connected; FetchingOldUsers;
                           FoundOldUsers (length (old_users_data old_users));
                           Starting] |}).
    done.
Qed.

Lemma with_old_password_skip k v items r :
  Username r <> k \/ Spec.is_system_account k = true ->
  Spec.with_old_password ((k, v) :: items) r
  = Spec.with_old_password items r.
Proof.
  unfold Spec.with_old_password. intros H.
  destruct (Spec.is_system_account (Username r)) eqn:Hs; [done|].
  cbn [dict_get]. destruct (decide (k = Username r)) as [->|]; [|done].
  destruct H as [H|H]; [done|congruence].
Qed.

(** The loop on a store that accepts every UPDATE. *)
Lemma loop_accepted items st :
  (forall rows k v, update_raises rows k v = false) ->
  NoDup items.*1 ->
  pending (foldl (loop_body update_raises (new_users_set (pending st)))
                 st items)
  = Spec.with_old_password items <$> pending st.
Proof.
  intros Hacc. revert st.
  induction items as [|[k v] items IH]; intros st Hnd.
  - cbn [foldl]. rewrite <- (list_fmap_id (pending st)) at 1.
    apply list_fmap_ext. intros i r _. unfold Spec.with_old_password.
    by destruct (Spec.is_system_account _).
  - cbn [fmap list_fmap fst] in Hnd. apply NoDup_cons in Hnd as [Hk Hnd].
    cbn [foldl].
    set (st1 := loop_body update_raises (new_users_set (pending st)) st
                  (k, v)).
    assert (new_users_set (pending st1) = new_users_set (pending st)
            /\ Spec.with_old_password items <$> pending st1
               = Spec.with_old_password ((k, v) :: items) <$> pending st)
      as [Hset Hmap].
    { unfold st1, loop_body.
      change (bool_decide (lower k = lit "jellyfin"))
        with (Spec.is_system_account k).
      destruct (Spec.is_system_account k) eqn:Hs; cbn [pending].
      { split; [done|]. apply list_fmap_ext. intros i r _.
        symmetry. apply with_old_password_skip. by right. }
      destruct (bool_decide (k ∈ new_users_set (pending st))) eqn:Hin.
      - rewrite Hacc. cbn [pending]. split.
        + unfold new_users_set. by rewrite update_password_usernames.
        + unfold update_password. rewrite <- list_fmap_compose.
          apply list_fmap_ext. intros i r _. cbn.
          destruct (decide (Username r = k)) as [E|E].
          * unfold Spec.with_old_password. cbn [Username Id Password].
            rewrite E, Hs. cbn [dict_get]. rewrite decide_True by done.
            assert (dict_get items k = None) as ->; [|done].
            clear -Hk. induction items as [|[k0 v0] items IH]; [done|].
            cbn [dict_get]. cbn [fmap list_fmap fst] in Hk.
            apply not_elem_of_cons in Hk as [Hne Hk].
            rewrite decide_False by done. by apply IH.
          * symmetry. apply with_old_password_skip. by left.
      - cbn [pending]. split; [done|].
        apply bool_decide_eq_false in Hin.
        apply list_fmap_ext. intros i r Hr. symmetry.
        apply with_old_password_skip. left. intros E. apply Hin.
        unfold new_users_set. apply elem_of_list_to_set.
        rewrite <- E. apply list_elem_of_fmap_2.
        by eapply list_elem_of_lookup_2. }
    rewrite <- Hset, IH by done. exact Hmap.
Qed.

(** X22.  What the password import does when the store accepts every
    statement.  Every row of [Users] whose username is not the system
    account's and is the username of an old account gets the password of
    the last old row with that username; every other row is unchanged. *)
Theorem password_import_transfers old_users new_users :
  (forall rows k v, update_raises rows k v = false) ->
  committed (transfer_password_hashes update_raises commit_raises
               old_users new_users) = true ->
  Users_after (transfer_password_hashes update_raises commit_raises
                 old_users new_users)
  = (fun r =>
       if Spec.is_system_account (Username r) then r
       else match last (filter (fun u => OldDb.Username u = Username r)
                               old_users) with
            | Some u => {| Username := Username r;
                           Password := OldDb.Password u;
                           Id := Id r |}
            | None => r
            end) <$> new_users.
Proof.
  intros Hacc. unfold transfer_password_hashes. cbn zeta.
  destruct (commit_raises _); cbn [committed Users_after]; [done|].
  intros _.
  pose proof (loop_accepted (old_users_data old_users)
                {| pending := new_users; updated_count := 0;
                   skipped_count := 0;
                   stdout := [Connected; FetchingOldUsers;
                              FoundOldUsers
                                (length (old_users_data old_users));
                              Starting] |} Hacc (old_users_data_NoDup _))
    as Hloop.
  cbn [pending] in Hloop. rewrite Hloop. apply list_fmap_ext. intros i r _.
  unfold Spec.with_old_password. rewrite old_users_data_get.
  destruct (Spec.is_system_account _); [done|].
  by destruct (last _).
Qed.

Lemma uncounted_lines_app out ms :
  Spec.uncounted_lines (out ++ ms)
  = (Spec.uncounted_lines out + Spec.uncounted_lines ms)%nat.
Proof. unfold Spec.uncounted_lines. by rewrite filter_app, length_app. Qed.

Lemma uncounted_lines_cons m ms :
  Spec.uncounted_lines (m :: ms)
  = ((if Spec.is_uncounted_line m then 1 else 0)
     + Spec.uncounted_lines ms)%nat.
Proof.
  unfold Spec.uncounted_lines. rewrite filter_cons.
  destruct (Spec.is_uncounted_line m).
  - by rewrite decide_True.
  - by rewrite decide_False.
Qed.

Lemma loop_counts users_in_new items st :
  let st' := foldl (loop_body update_raises users_in_new) st items in
  (updated_count st' + skipped_count st' + Spec.uncounted_lines (stdout st')
   = updated_count st + skipped_count st + Spec.uncounted_lines (stdout st)
     + length items)%nat.
Proof.
  cbn zeta. revert st. induction items as [|[k v] items IH]; intros st.
  - cbn. lia.
  - cbn [foldl length]. rewrite IH. unfold loop_body.
    destruct (bool_decide (lower k = lit "jellyfin"));
      [|destruct (bool_decide (k ∈ users_in_new));
        [destruct (update_raises _ _ _)|]];
      cbn [updated_count skipped_count stdout];
      rewrite uncounted_lines_app, !uncounted_lines_cons;
      cbn [Spec.is_uncounted_line]; change (Spec.uncounted_lines []) with 0%nat;
      lia.
Qed.

(** X23.  The summary of the password import.  The two counters of the
    summary and the lines for the excluded account and for the updates
    that failed account for every username of the old server, each
    once: the skipped counter does not count the excluded account. *)
Theorem password_import_accounting old_users new_users :
  let r := transfer_password_hashes update_raises commit_raises
             old_users new_users in
  (updated r + skipped r + Spec.uncounted_lines (output r)
   = length (old_users_data old_users))%nat
  /\ Summary (updated r) (skipped r) ∈ output r.
Proof.
  cbn zeta. unfold transfer_password_hashes. cbn zeta.
  pose proof (loop_counts (new_users_set new_users)
                (old_users_data old_users)
                {| pending := new_users; updated_count := 0;
                   skipped_count := 0;
                   stdout := [Connected; FetchingOldUsers;
                              FoundOldUsers
                                (length (old_users_data old_users));
                              Starting] |}) as H.
  cbn zeta in H. cbn [updated_count skipped_count stdout] in H.
  change (Spec.uncounted_lines [Connected; FetchingOldUsers;
            FoundOldUsers (length (old_users_data old_users)); Starting])
    with 0%nat in H.
  destruct (commit_raises _); cbn [updated skipped output];
    rewrite uncounted_lines_app, !uncounted_lines_cons;
    cbn [Spec.is_uncounted_line]; change (Spec.uncounted_lines []) with 0%nat;
    (split; [lia|]).
  - apply elem_of_app. right. right. right. by left.
  - apply elem_of_app. right. right. by left.
Qed.

(** X24.  A commit that fails leaves every password as it was, and the
    summary still reports the counters of the loop: they are the
    counters of the same run with a commit that goes through. *)
Theorem failed_save_keeps_passwords old_users new_users :
  committed (transfer_password_hashes update_raises commit_raises
               old_users new_users) = false ->
  Users_after (transfer_password_hashes update_raises commit_raises
                 old_users new_users) = new_users
  /\ updated (transfer_password_hashes update_raises commit_raises
                old_users new_users)
     = updated (transfer_password_hashes update_raises (fun _ => false)
                  old_users new_users)
  /\ skipped (transfer_password_hashes update_raises commit_raises
                old_users new_users)
     = skipped (transfer_password_hashes update_raises (fun _ => false)
                  old_users new_users)
  /\ ErrorOccurred ∈ output (transfer_password_hashes update_raises
                              commit_raises old_users new_users).
Proof.
  unfold transfer_password_hashes. cbn zeta.
  destruct (commit_raises _); cbn [committed Users_after updated skipped
                                   output]; [|done].
  intros _. repeat split. apply elem_of_app. right. by left.
Qed.

End PasswordRun.

Lemma password_import_transfers_witness :
  PasswordImport.Users_after
    (PasswordImport.transfer_password_hashes Scenario.updates Scenario.saves
       (OldDb.Users Scenario.source) Scenario.new_accounts)
  = [{| PasswordImport.Username := lit "jellyfin";
        PasswordImport.Password := Some (lit "fresh");
        PasswordImport.Id := lit "adm1n" |};
     {| PasswordImport.Username := lit "alice";
        PasswordImport.Password := Some (lit "$PBKDF2$");
        PasswordImport.Id := lit "a11ce" |}].
Proof.
  rewrite (password_import_transfers Scenario.updates Scenario.saves
             (OldDb.Users Scenario.source) Scenario.new_accounts);
    reflexivity.
Defined.

Lemma failed_save_keeps_passwords_witness :
  PasswordImport.Users_after
    (PasswordImport.transfer_password_hashes Scenario.updates
       Scenario.save_fails (OldDb.Users Scenario.source)
       Scenario.new_accounts)
  = Scenario.new_accounts
  /\ PasswordImport.updated
       (PasswordImport.transfer_password_hashes Scenario.updates
          Scenario.save_fails (OldDb.Users Scenario.source)
          Scenario.new_accounts)
     = 1%nat.
Proof.
  destruct (failed_save_keeps_passwords Scenario.updates Scenario.save_fails
              (OldDb.Users Scenario.source) Scenario.new_accounts)
    as (H1 & H2 & _).
  - reflexivity.
  - split; [exact H1|]. rewrite H2. reflexivity.
Defined.
